(** * The grid transition engine of the salz game engine (src/index.js)

    A shallow embedding of [Cell], [Grid.next] and [Grid.mountSnapshot],
    followed by the properties of the transition that the specification
    states.

    Modelling conventions.
    - A JavaScript number that the engine handles is an integer or [NaN]
      (the latter only arises from [raw % 0]); integers are taken in the
      range where IEEE doubles are exact, so arithmetic on them is that
      of [Z].
    - Arrays are lists; [findIndex] yields [None] for [-1].
    - The object [playersCount] is an insertion-ordered association list,
      with [Object.keys] giving the integer-index keys in ascending order
      before the other keys in insertion order.  A key stands for the
      string of the integer; [parseInt(key, 10)] gives the integer back
      below 10^21 and reads only the signed first digit of the exponent
      notation from 10^21 on.
    - The scratch list [tmpAliveNeighbours] of a candidate cell is passed
      along explicitly with the result of [shouldBeBorn]; cells held in
      the grid always have it empty.
    - An uncaught exception is the [Throw] result of an error monad; the
      grid it leaves behind, with the moves applied and no generation
      step, is [postMoves]. *)

From Stdlib Require Import ZArith List Bool Lia PeanoNat Permutation Sorted.
Import ListNotations.

Open Scope Z_scope.

(** ** A fragment of JavaScript *)

Module JS.

Inductive num : Type :=
| Int (z : Z)
| NaN.

(** [a + i] for an integer literal [i]. *)
Definition add (a : num) (i : Z) : num :=
  match a with
  | Int z => Int (z + i)
  | NaN => NaN
  end.

(** [a < 0]. *)
Definition ltz (a : num) : bool :=
  match a with
  | Int z => z <? 0
  | NaN => false
  end.

(** [a % n]: the remainder takes the sign of the dividend, and a zero
    divisor gives [NaN]. *)
Definition rem (a : num) (n : Z) : num :=
  match a with
  | Int z => if n =? 0 then NaN else Int (Z.rem z n)
  | NaN => NaN
  end.

(** [a === b]. *)
Definition seq (a b : num) : bool :=
  match a, b with
  | Int u, Int v => u =? v
  | _, _ => false
  end.

Definition num_eqb (a b : num) : bool :=
  match a, b with
  | Int u, Int v => u =? v
  | NaN, NaN => true
  | _, _ => false
  end.

Inductive error : Type :=
| TypeError.

Inductive result (A : Type) : Type :=
| Ok (a : A)
| Throw (e : error).

Arguments Ok {A} a.
Arguments Throw {A} e.

Definition bind {A B : Type} (r : result A) (k : A -> result B) : result B :=
  match r with
  | Ok a => k a
  | Throw e => Throw e
  end.

(** A loop whose body may throw. *)
Fixpoint foldM {A S : Type} (body : S -> A -> result S) (l : list A) (s : S)
  : result S :=
  match l with
  | [] => Ok s
  | a :: l' => bind (body s a) (foldM body l')
  end.

(** [Array.prototype.findIndex]. *)
Fixpoint findIndex {A : Type} (p : A -> bool) (l : list A) : option nat :=
  match l with
  | [] => None
  | a :: l' =>
      if p a then Some O
      else match findIndex p l' with
           | Some k => Some (S k)
           | None => None
           end
  end.

(** [l.splice(k, 1)]. *)
Fixpoint splice1 {A : Type} (k : nat) (l : list A) : list A :=
  match l, k with
  | [], _ => []
  | _ :: l', O => l'
  | a :: l', S k' => a :: splice1 k' l'
  end.

(** *** Objects with integer-like property names *)

Definition object : Type := list (Z * Z).

Fixpoint get (o : object) (k : Z) : option Z :=
  match o with
  | [] => None
  | (k', v) :: o' => if k' =? k then Some v else get o' k
  end.

(** [o[k] = v]: an existing property keeps its place, a new one is
    created last. *)
Fixpoint set (o : object) (k v : Z) : object :=
  match o with
  | [] => [(k, v)]
  | (k', v') :: o' => if k' =? k then (k', v) :: o' else (k', v') :: set o' k v
  end.

(** Property names that are array indices are enumerated first, in
    ascending numeric order. *)
Definition isArrayIndex (k : Z) : bool := (0 <=? k) && (k <? 2 ^ 32 - 1).

Fixpoint insertSorted (k : Z) (l : list Z) : list Z :=
  match l with
  | [] => [k]
  | h :: t => if k <=? h then k :: l else h :: insertSorted k t
  end.

Definition sortAsc (l : list Z) : list Z := fold_right insertSorted [] l.

(** [Object.keys(o)]. *)
Definition keys (o : object) : list Z :=
  let names := map fst o in
  sortAsc (filter isArrayIndex names)
  ++ filter (fun k => negb (isArrayIndex k)) names.

(** [u > v] on property values, where a missing property is [undefined]
    and compares false. *)
Definition gt (u v : option Z) : bool :=
  match u, v with
  | Some a, Some b => a >? b
  | _, _ => false
  end.

(** [l.reduce(f)] without an initial value. *)
Definition reduce {A : Type} (f : A -> A -> A) (l : list A) : result A :=
  match l with
  | [] => Throw TypeError
  | a :: l' => Ok (fold_left f l' a)
  end.

(** The double nearest to a non-negative integer, ties to even: below
    2^53 the integer itself, otherwise the nearest multiple of the unit in
    the last place of its 53-bit significand. *)
Definition roundToDouble (v : Z) : Z :=
  let e := Z.log2 v in
  if e <=? 52 then v
  else
    let u := 2 ^ (e - 52) in
    let q := v / u in
    let r := v mod u in
    if 2 * r <? u then q * u
    else if u <? 2 * r then (q + 1) * u
    else if Z.even q then q * u else (q + 1) * u.

(** The number of decimal digits of a positive integer, less one. *)
Fixpoint digitsAbove (fuel : nat) (v : Z) : Z :=
  match fuel with
  | O => 0
  | S fuel' => if v <? 10 then 0 else 1 + digitsAbove fuel' (v / 10)
  end.

Definition decimalExponent (v : Z) : Z :=
  digitsAbove (Z.to_nat (Z.log2 v)) v.

(** The first digit of [String(v)] for a number [v >= 10^21], which is
    printed in exponent notation with the fewest digits that read back as
    [v]: the first digit [d] of [v] itself, unless the next round value
    [(d + 1) * 10^m] already reads back as [v]. *)
Definition exponentLead (v : Z) : Z :=
  let m := decimalExponent v in
  let d := v / 10 ^ m in
  if roundToDouble ((d + 1) * 10 ^ m) =? v
  then (if d =? 9 then 1 else d + 1)
  else d.

(** [parseInt(s, 10)] on a property name [s = String(k)]: below 10^21
    the name is written in plain digits and reads back as [k]; from 10^21
    on it is in exponent notation, of which [parseInt] reads the sign and
    the first digit only. *)
Definition parseInt (k : Z) : Z :=
  if Z.abs k <? 10 ^ 21 then k else Z.sgn k * exponentLead (Z.abs k).

End JS.

Import JS.

Notation "x <- c ;; k" := (bind c (fun x => k))
  (at level 61, c at next level, right associativity).

(** ** Cells, moves and the grid *)

Record Cell : Type := mkCell { owner : Z; x : num; y : num }.

(** [new Cell(x, y)]: the owner starts as the unowned sentinel. *)
Definition unowned : Z := -1.

Definition newCell (cx cy : num) : Cell :=
  {| owner := unowned; x := cx; y := cy |}.

(** [this.equals(cell)]. *)
Definition equals (this cell : Cell) : bool :=
  if seq (x cell) (x this)
  then (if seq (y cell) (y this) then true else false)
  else false.

(** A move, and likewise a snapshot entry: [{ x, y, playerid }] with
    integer fields. *)
Record Move : Type := mkMove { mx : Z; my : Z; playerid : Z }.

Record Grid : Type := mkGrid { size : Z; cells : list Cell }.

(** [new Grid(size)]. *)
Definition newGrid (n : Z) : Grid := {| size := n; cells := [] |}.

(** The coordinate pair of a cell; the template string
    [`${x},${y}`] is one-to-one on these pairs. *)
Definition coord : Type := (num * num)%type.

Definition key (c : Cell) : coord := (x c, y c).

Definition coord_eqb (p q : coord) : bool :=
  num_eqb (fst p) (fst q) && num_eqb (snd p) (snd q).

(** ** [Grid.next] *)

(** [flip]: [new Cell(move.x, move.y)] with [owner = move.playerid]. *)
Definition flipOf (move : Move) : Cell :=
  {| owner := playerid move; x := Int (mx move); y := Int (my move) |}.

(** One iteration of the loop over [turnMoves]. *)
Definition applyMove (cs : list Cell) (move : Move) : list Cell :=
  let flip := flipOf move in
  match findIndex (fun cell => equals cell flip) cs with
  | Some flipIndex => splice1 flipIndex cs
  | None => cs ++ [flip]
  end.

(** The loop [for (const move of turnMoves)]. *)
Definition applyMoves (cs : list Cell) (turnMoves : list Move) : list Cell :=
  fold_left applyMove turnMoves cs.

(** [isAlive(cell)] against [this.cells]. *)
Definition isAlive (cs : list Cell) (cell : Cell) : bool :=
  match findIndex (fun c => equals c cell) cs with
  | Some _ => true
  | None => false
  end.

(** The two nested loops [for i of [-1,0,1]], [for j of [-1,0,1]] with
    [if (i === 0 && j === 0) continue], over a loop state. *)
Definition offsets : list Z := [-1; 0; 1].

Definition forShifts {S : Type} (body : Z -> Z -> S -> S) (s : S) : S :=
  fold_left
    (fun s i =>
       fold_left
         (fun s j => if (i =? 0) && (j =? 0) then s else body i j s)
         offsets s)
    offsets s.

(** The same loops around a body that may throw. *)
Definition forShiftsM {S : Type} (body : Z -> Z -> S -> result S) (s : S)
  : result S :=
  foldM
    (fun s i =>
       foldM
         (fun s j => if (i =? 0) && (j =? 0) then Ok s else body i j s)
         offsets s)
    offsets s.

(** The pairs [(i, j)] in the order the nested loops visit them. *)
Definition shifts : list (Z * Z) :=
  forShifts (fun i j acc => acc ++ [(i, j)]) [].

(** [raw < 0 ? raw + size : raw % size]. *)
Definition wrap (n : Z) (raw : num) : num :=
  if ltz raw then add raw n else rem raw n.

(** [new Cell(xMod, yMod)] for the shift [(i, j)] of a cell. *)
Definition shifted (n : Z) (cell : Cell) (i j : Z) : Cell :=
  let xShift := add (x cell) i in
  let yShift := add (y cell) j in
  let xMod := wrap n xShift in
  let yMod := wrap n yShift in
  newCell xMod yMod.

(** [getNeighboursOf(cell)]: per shift, the grid cells equal to the
    wrapped neighbour, or else the fresh neighbour itself. *)
Definition getNeighboursOf (n : Z) (cs : list Cell) (cell : Cell)
  : list Cell :=
  forShifts
    (fun i j neighbours =>
       let neighbourCell := shifted n cell i j in
       let gridCell := filter (fun oldCell => equals oldCell neighbourCell) cs in
       if negb (length gridCell =? 0)%nat
       then neighbours ++ gridCell
       else neighbours ++ [neighbourCell])
    [].

(** [getAliveNeighboursOf(cell)]. *)
Definition getAliveNeighboursOf (n : Z) (cs : list Cell) (cell : Cell)
  : list Cell :=
  filter (isAlive cs) (getNeighboursOf n cs cell).

(** The body of the [forEach] of [most]:
    [playersCount[owner] = playersCount[owner] ? playersCount[owner] + 1 : 1]
    for an owner other than [-1]. *)
Definition tally (playersCount : object) (neighbour : Cell) : object :=
  let o := owner neighbour in
  if negb (o =? -1)
  then set playersCount o
         (match get playersCount o with
          | Some v => if v =? 0 then 1 else v + 1
          | None => 1
          end)
  else playersCount.

(** [most(aliveNeighbours)]: the keys of the tally, reversed, reduced
    without an initial value by
    [(a, b) => playersCount[a] > playersCount[b] ? a : b]. *)
Definition most (aliveNeighbours : list Cell) : result Z :=
  let playersCount := fold_left tally aliveNeighbours [] in
  k <- reduce
         (fun a b =>
            if gt (get playersCount a) (get playersCount b) then a else b)
         (rev (keys playersCount)) ;;
  Ok (parseInt k).

(** One iteration of the loops of [shouldBeBorn], on the pair of
    [counter] and the scratch list of the candidate. *)
Definition birthStep (n : Z) (cs : list Cell) (neighbour : Cell) (i j : Z)
  (st : Z * list Cell) : Z * list Cell :=
  let '(counter, tmp) := st in
  let neighbourCell := shifted n neighbour i j in
  match findIndex (fun cell => equals cell neighbourCell) cs with
  | Some neighbourCellIndex =>
      (counter + 1, tmp ++ [nth neighbourCellIndex cs neighbourCell])
  | None => st
  end.

(** [shouldBeBorn(neighbour)], returning its verdict together with the
    scratch list it leaves on the candidate. *)
Definition shouldBeBorn (n : Z) (cs : list Cell) (neighbour : Cell)
  : bool * list Cell :=
  let '(counter, tmpAliveNeighbours) :=
    forShifts (birthStep n cs neighbour) (0, []) in
  (counter =? 3, tmpAliveNeighbours).

(** [setOwner(cell)] on a candidate carrying the scratch list [tmp]. *)
Definition setOwner (cell : Cell) (tmp : list Cell) : result Cell :=
  o <- most tmp ;;
  Ok {| owner := o; x := x cell; y := y cell |}.

(** The state of the candidate scan: the keys of [checked] and the
    array [newBorns]. *)
Definition scanState : Type := (list coord * list Cell)%type.

(** One iteration of the innermost loop of the scan. *)
Definition scanShift (n : Z) (cs : list Cell) (currentCell : Cell)
  (i j : Z) (st : scanState) : result scanState :=
  let '(checked, newBorns) := st in
  let neighbour := shifted n currentCell i j in
  if isAlive cs neighbour then Ok st
  else if existsb (coord_eqb (key neighbour)) checked then Ok st
  else
    let checked' := checked ++ [key neighbour] in
    let '(born, tmp) := shouldBeBorn n cs neighbour in
    if born
    then c <- setOwner neighbour tmp ;; Ok (checked', newBorns ++ [c])
    else Ok (checked', newBorns).

(** The body of the loop over [this.cells]. *)
Definition scanCell (n : Z) (cs : list Cell) (st : scanState)
  (currentCell : Cell) : result scanState :=
  forShiftsM (scanShift n cs currentCell) st.

(** The loop [for (let k = 0; k < this.cells.length; k++)], from an
    empty [checked] and an empty [newBorns]. *)
Definition scan (n : Z) (cs : list Cell) : result scanState :=
  foldM (scanCell n cs) cs ([], []).

(** [isHealthy(cell)]. *)
Definition isHealthy (n : Z) (cs : list Cell) (cell : Cell) : bool :=
  let numAliveNeighbours := length (getAliveNeighboursOf n cs cell) in
  existsb (Nat.eqb numAliveNeighbours) [2%nat; 3%nat].

(** [next(turnMoves)]: the moves, the scan for newborns, the survivors,
    and [this.cells = [...newBorns, ...stillAliveCells]]. *)
Definition next (g : Grid) (turnMoves : list Move) : result Grid :=
  let cs := applyMoves (cells g) turnMoves in
  st <- scan (size g) cs ;;
  let newBorns := snd st in
  let stillAliveCells := filter (isHealthy (size g) cs) cs in
  Ok {| size := size g; cells := newBorns ++ stillAliveCells |}.

(** [mountSnapshot(snapshot)]. *)
Definition mountSnapshot (g : Grid) (snapshot : list Move) : Grid :=
  {| size := size g;
     cells :=
       fold_left
         (fun cs cell =>
            cs ++ [{| owner := playerid cell;
                      x := Int (mx cell); y := Int (my cell) |}])
         snapshot (cells g) |}.

(** ** Specification-side notions *)

(** A probe cell at a coordinate pair. *)
Definition at_coord (p : coord) : Cell := newCell (fst p) (snd p).

(** The eight wrapped neighbour coordinates of a coordinate pair. *)
Definition neighbourCoords (n : Z) (p : coord) : list coord :=
  map (fun ij => key (shifted n (at_coord p) (fst ij) (snd ij))) shifts.

(** Whether some live cell sits at a coordinate pair. *)
Definition liveAt (cs : list Cell) (p : coord) : bool :=
  isAlive cs (at_coord p).

(** How many of the eight neighbour coordinates are live. *)
Definition liveNeighbourCount (n : Z) (cs : list Cell) (p : coord) : nat :=
  length (filter (liveAt cs) (neighbourCoords n p)).

(** The first live cell at a coordinate pair, if any. *)
Definition occupant (cs : list Cell) (p : coord) : option Cell :=
  find (fun c => equals c (at_coord p)) cs.

(** The live cells found at the neighbour coordinates, one per live
    coordinate, in scan order. *)
Definition liveNeighbours (n : Z) (cs : list Cell) (p : coord) : list Cell :=
  flat_map
    (fun q => match occupant cs q with Some c => [c] | None => [] end)
    (neighbourCoords n p).


(** At most one cell per coordinate pair. *)
Definition uniqueCoords (cs : list Cell) : Prop := NoDup (map key cs).

Definition inBounds (n : Z) (c : Cell) : Prop :=
  exists a b, key c = (Int a, Int b) /\ 0 <= a < n /\ 0 <= b < n.

(** The coordinate pair a move aims at. *)
Definition target (move : Move) : coord := (Int (mx move), Int (my move)).

(** How many moves of a batch aim at a coordinate pair. *)
Definition togglesAt (p : coord) (turnMoves : list Move) : nat :=
  length (filter (fun m => coord_eqb (target m) p) turnMoves).

Definition occupantList (cs : list Cell) (q : coord) : list Cell :=
  match occupant cs q with Some c => [c] | None => [] end.

(** The live cells at a coordinate pair, and what [getNeighboursOf]
    lists for it: those cells, or else a fresh unowned probe. *)
Definition cellsAt (cs : list Cell) (q : coord) : list Cell :=
  filter (fun oldCell => equals oldCell (at_coord q)) cs.

Definition neighbourSlot (cs : list Cell) (q : coord) : list Cell :=
  if negb (length (cellsAt cs q) =? 0)%nat then cellsAt cs q else [at_coord q].

(** What is known of a newborn: it sits on a dead coordinate next to a
    live cell, three of its neighbour coordinates are live, and its owner
    is the vote of their occupants. *)
Definition bornAt (n : Z) (cs : list Cell) (c : Cell) : Prop :=
  liveAt cs (key c) = false
  /\ liveNeighbourCount n cs (key c) = 3%nat
  /\ most (liveNeighbours n cs (key c)) = Ok (owner c)
  /\ exists live, In live cs /\ In (key c) (neighbourCoords n (key live)).

Definition scanInv (n : Z) (cs : list Cell) (st : scanState) : Prop :=
  (forall c, In c (snd st) -> In (key c) (fst st) /\ bornAt n cs c)
  /\ (forall q, In q (fst st) -> liveNeighbourCount n cs q = 3%nat ->
        exists c, In c (snd st) /\ key c = q)
  /\ NoDup (map key (snd st))
  /\ NoDup (fst st).

(** Every birth has a voter: each dead coordinate pair next to a live
    cell with three live neighbour coordinates has an owned occupant among
    them. *)
Definition votable (n : Z) (cs : list Cell) : Prop :=
  forall live C,
    In live cs -> In C (neighbourCoords n (key live)) ->
    liveAt cs C = false -> liveNeighbourCount n cs C = 3%nat ->
    exists d, In d (liveNeighbours n cs C) /\ owner d <> unowned.

(** The votes of player [q] in a list of cells. *)
Definition votes (q : Z) (l : list Cell) : nat :=
  length (filter (fun c => owner c =? q) l).

Definition valueOr0 (u : option Z) : Z :=
  match u with Some v => v | None => 0 end.

Definition postMoves (g : Grid) (turnMoves : list Move) : list Cell :=
  applyMoves (cells g) turnMoves.

(** [raw < 0 ? raw + size : raw % size] on integers, with the remainder
    of JavaScript (sign of the dividend). *)
Definition wrapped (n raw : Z) : Z :=
  if raw <? 0 then raw + n else Z.rem raw n.

(** ** Reference grids *)

(** Three cells in a row on a board of size 50, all of player 1. *)
Definition blinker : Grid :=
  mountSnapshot (newGrid 50) [mkMove 2 3 1; mkMove 3 3 1; mkMove 4 3 1].

Definition blinkerUpright : Grid :=
  {| size := 50;
     cells := [mkCell 1 (Int 3) (Int 2); mkCell 1 (Int 3) (Int 4);
               mkCell 1 (Int 3) (Int 3)] |}.

(** Three cells in a row on a board of size 5, two of player 1 and one
    of player 2. *)
Definition contested : Grid :=
  mountSnapshot (newGrid 5) [mkMove 1 2 1; mkMove 2 2 1; mkMove 3 2 2].

Definition contestedNext : Grid :=
  {| size := 5;
     cells := [mkCell 1 (Int 2) (Int 1); mkCell 1 (Int 2) (Int 3);
               mkCell 1 (Int 2) (Int 2)] |}.

(** Three unowned cells in a row on a board of size 5. *)
Definition unownedRow : Grid :=
  mountSnapshot (newGrid 5)
    [mkMove 1 2 (-1); mkMove 2 2 (-1); mkMove 3 2 (-1)].


(** Two steps from the three-in-a-row grid: three cells after the first
    step, three after the second, among them (4,2) and (2,4). *)
Definition blinkerTrace (moves1 moves2 : list Move) : Prop :=
  exists g1 g2,
    next blinker moves1 = Ok g1
    /\ next g1 moves2 = Ok g2
    /\ length (cells g1) = 3%nat
    /\ length (cells g2) = 3%nat
    /\ liveAt (cells g2) (Int 4, Int 2) = true
    /\ liveAt (cells g2) (Int 2, Int 4) = true.

(** The batches of the reference sequence. *)
Definition firstBatch : list Move :=
  [mkMove 10 10 1; mkMove 15 15 1; mkMove 25 25 1].

Definition secondBatch : list Move :=
  [mkMove 5 2 1; mkMove 1 4 1; mkMove 25 25 1].

(** [debugCell(cell)]: the object [{ x: cell.x, y: cell.y }]. *)
Definition debugCell (cell : Cell) : coord := (x cell, y cell).

(** The rule of the game on a live set: a live coordinate stays live
    with two or three live neighbour coordinates, a dead one becomes live
    with exactly three. *)
Definition conwayRule (n : Z) (cs : list Cell) (p : coord) : bool :=
  if liveAt cs p
  then (liveNeighbourCount n cs p =? 2)%nat || (liveNeighbourCount n cs p =? 3)%nat
  else (liveNeighbourCount n cs p =? 3)%nat.

(** A birth that cannot be owned: a dead coordinate pair next to a live
    cell whose three live neighbour coordinates hold unowned cells only. *)
Definition unownedBirth (n : Z) (cs : list Cell) (C : coord) : Prop :=
  (exists live, In live cs /\ In C (neighbourCoords n (key live)))
  /\ liveAt cs C = false
  /\ liveNeighbourCount n cs C = 3%nat
  /\ forall d, In d (liveNeighbours n cs C) -> owner d = unowned.

(** * Properties *)

(** ** Basic facts about the JavaScript fragment *)

Lemma seq_true_iff (a b : num) :
  seq a b = true <-> exists z, a = Int z /\ b = Int z.
Proof.
  destruct a as [u|], b as [v|]; simpl; split;
    try discriminate; try (intros (z & H1 & H2); discriminate).
  - intro H. apply Z.eqb_eq in H. subst. eauto.
  - intros (z & H1 & H2). inversion H1; inversion H2; subst. apply Z.eqb_refl.
Qed.

Lemma num_eqb_eq (a b : num) : num_eqb a b = true <-> a = b.
Proof.
  destruct a as [u|], b as [v|]; simpl; split; intro H;
    try discriminate; try reflexivity.
  - apply Z.eqb_eq in H. now subst.
  - inversion H. apply Z.eqb_refl.
Qed.

Lemma coord_eqb_eq (p q : coord) : coord_eqb p q = true <-> p = q.
Proof.
  destruct p as [a b], q as [c d]. unfold coord_eqb. simpl.
  rewrite andb_true_iff, !num_eqb_eq. split.
  - intros [-> ->]. reflexivity.
  - intro H. inversion H. auto.
Qed.

Lemma existsb_coord_In (p : coord) (l : list coord) :
  existsb (coord_eqb p) l = true <-> In p l.
Proof.
  rewrite existsb_exists. split.
  - intros (q & Hq & E). apply coord_eqb_eq in E. now subst.
  - intro H. exists p. split; [assumption | now apply coord_eqb_eq].
Qed.

Lemma equals_true_iff (c d : Cell) :
  equals c d = true <-> exists a b, key c = (Int a, Int b) /\ key d = (Int a, Int b).
Proof.
  unfold equals, key. split.
  - destruct (seq (x d) (x c)) eqn:Ex; [|discriminate].
    destruct (seq (y d) (y c)) eqn:Ey; [|discriminate].
    intros _. apply seq_true_iff in Ex, Ey.
    destruct Ex as (a & -> & ->), Ey as (b & -> & ->). eauto.
  - intros (a & b & H1 & H2). injection H1 as -> ->. injection H2 as -> ->.
    simpl. now rewrite !Z.eqb_refl.
Qed.

Lemma equals_key (c d d' : Cell) : key d = key d' -> equals c d = equals c d'.
Proof.
  unfold equals, key. intro H. inversion H. reflexivity.
Qed.

Lemma equals_same_key (c d : Cell) : equals c d = true -> key c = key d.
Proof.
  intro H. apply equals_true_iff in H. destruct H as (a & b & -> & ->).
  reflexivity.
Qed.

Lemma key_at_coord (p : coord) : key (at_coord p) = p.
Proof. now destruct p. Qed.

Lemma shifted_key (n : Z) (c d : Cell) (i j : Z) :
  key c = key d -> shifted n c i j = shifted n d i j.
Proof.
  unfold shifted, key. intro H. inversion H. reflexivity.
Qed.

(** *** [findIndex], [find] and [filter] *)

Lemma findIndex_find {A : Type} (p : A -> bool) (l : list A) (d : A) :
  match findIndex p l with
  | Some k => find p l = Some (nth k l d)
  | None => find p l = None
  end.
Proof.
  induction l as [|a l IH]; simpl; [reflexivity|].
  destruct (p a); [reflexivity|].
  destruct (findIndex p l); assumption.
Qed.

Lemma findIndex_None {A : Type} (p : A -> bool) (l : list A) :
  findIndex p l = None <-> forall a, In a l -> p a = false.
Proof.
  induction l as [|a l IH]; simpl.
  - split; [intros _ ? [] | reflexivity].
  - destruct (p a) eqn:E.
    + split; [discriminate|]. intro H. rewrite (H a) in E by auto. discriminate.
    + destruct (findIndex p l).
      * split; [discriminate|]. intro H.
        assert (N : Some n = None) by (apply IH; intros; apply H; auto).
        discriminate.
      * split; [|reflexivity]. intros _ b [<-|Hb]; [assumption|].
        now apply IH.
Qed.

Lemma isAlive_true_iff (cs : list Cell) (c : Cell) :
  isAlive cs c = true <-> exists d, In d cs /\ equals d c = true.
Proof.
  unfold isAlive. destruct (findIndex _ cs) eqn:E.
  - split; [intros _|reflexivity].
    pose proof (findIndex_find (fun d => equals d c) cs c) as F.
    rewrite E in F. apply find_some in F. eauto.
  - split; [discriminate|]. intros (d & Hd & Hq).
    rewrite findIndex_None in E. rewrite (E d Hd) in Hq. discriminate.
Qed.

Lemma isAlive_false_iff (cs : list Cell) (c : Cell) :
  isAlive cs c = false <-> forall d, In d cs -> equals d c = false.
Proof.
  unfold isAlive. destruct (findIndex _ cs) eqn:E.
  - split; [discriminate|]. intro H. apply findIndex_None in H.
    congruence.
  - split; [|reflexivity]. intros _. now apply findIndex_None.
Qed.

Lemma isAlive_key (cs : list Cell) (c d : Cell) :
  key c = key d -> isAlive cs c = isAlive cs d.
Proof.
  intro H. unfold isAlive.
  replace (fun c0 => equals c0 c) with (fun c0 => equals c0 d); [reflexivity|].
  unfold equals, key in *. inversion H. reflexivity.
Qed.

Lemma liveAt_key (cs : list Cell) (c : Cell) : liveAt cs (key c) = isAlive cs c.
Proof. unfold liveAt. apply isAlive_key. apply key_at_coord. Qed.

Lemma isAlive_In (cs : list Cell) (c : Cell) :
  In c cs -> (exists a b, key c = (Int a, Int b)) -> isAlive cs c = true.
Proof.
  intros H (a & b & K). apply isAlive_true_iff. exists c. split; [assumption|].
  apply equals_true_iff. eauto.
Qed.

(** ** Move application *)

Lemma findIndex_split {A : Type} (p : A -> bool) (l : list A) (k : nat) :
  findIndex p l = Some k ->
  exists l1 a l2,
    l = l1 ++ a :: l2 /\ p a = true /\ (forall b, In b l1 -> p b = false)
    /\ splice1 k l = l1 ++ l2.
Proof.
  revert k. induction l as [|h l IH]; intros k; simpl; [discriminate|].
  destruct (p h) eqn:E.
  - intro K. injection K as <-. exists [], h, l. simpl. intuition.
  - destruct (findIndex p l) as [k'|]; [|discriminate].
    intro K. injection K as <-.
    destruct (IH k' eq_refl) as (l1 & a & l2 & -> & Pa & F & S1).
    exists (h :: l1), a, l2. simpl. rewrite S1. repeat split; auto.
    intros b [<-|Hb]; auto.
Qed.

Lemma equals_flip (c : Cell) (move : Move) :
  equals c (flipOf move) = true <-> key c = target move.
Proof.
  rewrite equals_true_iff. unfold target, flipOf, key. simpl. split.
  - intros (a & b & -> & E). now injection E as -> ->.
  - intro E. exists (mx move), (my move). auto.
Qed.

Lemma applyMove_dead (cs : list Cell) (move : Move) :
  liveAt cs (target move) = false -> applyMove cs move = cs ++ [flipOf move].
Proof.
  unfold liveAt. rewrite (isAlive_key cs _ (flipOf move)) by apply key_at_coord.
  unfold isAlive, applyMove. fold (flipOf move).
  destruct (findIndex _ cs); [discriminate | reflexivity].
Qed.

Lemma applyMove_live (cs : list Cell) (move : Move) :
  liveAt cs (target move) = true ->
  exists l1 a l2,
    cs = l1 ++ a :: l2 /\ key a = target move
    /\ (forall b, In b l1 -> key b <> target move)
    /\ applyMove cs move = l1 ++ l2.
Proof.
  unfold liveAt. rewrite (isAlive_key cs _ (flipOf move)) by apply key_at_coord.
  unfold isAlive, applyMove. fold (flipOf move).
  destruct (findIndex _ cs) as [k|] eqn:E; [intros _ | discriminate].
  destruct (findIndex_split _ _ _ E) as (l1 & a & l2 & -> & Pa & F & S1).
  exists l1, a, l2. rewrite S1. repeat split; auto.
  - now apply equals_flip.
  - intros b Hb K. apply equals_flip in K. rewrite (F b Hb) in K. discriminate.
Qed.

Lemma applyMove_In (cs : list Cell) (move : Move) (c : Cell) :
  In c (applyMove cs move) -> In c cs \/ c = flipOf move.
Proof.
  destruct (liveAt cs (target move)) eqn:L.
  - destruct (applyMove_live _ _ L) as (l1 & a & l2 & -> & _ & _ & ->).
    rewrite !in_app_iff. simpl. tauto.
  - rewrite (applyMove_dead _ _ L), in_app_iff. simpl. intuition.
Qed.

Lemma applyMove_keep (cs : list Cell) (move : Move) (c : Cell) :
  In c cs -> key c <> target move -> In c (applyMove cs move).
Proof.
  intros Hc K. destruct (liveAt cs (target move)) eqn:L.
  - destruct (applyMove_live _ _ L) as (l1 & a & l2 & -> & Ka & _ & ->).
    rewrite in_app_iff in *. simpl in Hc.
    destruct Hc as [?|[<-|?]]; auto. contradiction.
  - rewrite (applyMove_dead _ _ L), in_app_iff. auto.
Qed.

Lemma uniqueCoords_app_inv (l1 l2 : list Cell) (a : Cell) :
  uniqueCoords (l1 ++ a :: l2) ->
  uniqueCoords (l1 ++ l2)
  /\ (forall b, In b (l1 ++ l2) -> key b <> key a).
Proof.
  unfold uniqueCoords. rewrite !map_app. simpl. intro H.
  apply NoDup_remove in H. destruct H as [H1 H2]. split; [assumption|].
  intros b Hb E. apply H2. rewrite <- map_app, <- E. now apply in_map.
Qed.

Lemma applyMove_unique (cs : list Cell) (move : Move) :
  uniqueCoords cs -> uniqueCoords (applyMove cs move).
Proof.
  intro U. destruct (liveAt cs (target move)) eqn:L.
  - destruct (applyMove_live _ _ L) as (l1 & a & l2 & -> & _ & _ & ->).
    now apply uniqueCoords_app_inv in U.
  - rewrite (applyMove_dead _ _ L). unfold uniqueCoords in *.
    rewrite map_app. simpl.
    apply NoDup_app; [assumption | repeat constructor; intros [] | ].
    intros k Hk [<-|[]]. apply in_map_iff in Hk. destruct Hk as (c & Kc & Hc).
    unfold liveAt in L. rewrite isAlive_false_iff in L.
    specialize (L c Hc).
    assert (T : equals c (at_coord (target move)) = true).
    { apply equals_true_iff. exists (mx move), (my move).
      split; [exact Kc | reflexivity]. }
    congruence.
Qed.

Lemma applyMoves_unique (turnMoves : list Move) (cs : list Cell) :
  uniqueCoords cs -> uniqueCoords (applyMoves cs turnMoves).
Proof.
  revert cs. induction turnMoves as [|m ms IH]; intros cs U; simpl; auto.
  apply IH. now apply applyMove_unique.
Qed.

Lemma liveAt_true_iff (cs : list Cell) (p : coord) :
  liveAt cs p = true
  <-> exists c a b, In c cs /\ key c = p /\ p = (Int a, Int b).
Proof.
  unfold liveAt. rewrite isAlive_true_iff. split.
  - intros (d & Hd & E). apply equals_true_iff in E.
    destruct E as (a & b & K1 & K2). rewrite key_at_coord in K2.
    exists d, a, b. subst. auto.
  - intros (c & a & b & Hc & K & ->). exists c. split; [assumption|].
    apply equals_true_iff. exists a, b. now rewrite key_at_coord.
Qed.

(** A single toggle flips the liveness of its target on a grid with
    unique coordinates and leaves every other coordinate alone. *)
Lemma applyMove_liveAt (cs : list Cell) (move : Move) (p : coord) :
  uniqueCoords cs ->
  liveAt (applyMove cs move) p =
  if coord_eqb (target move) p then negb (liveAt cs p) else liveAt cs p.
Proof.
  intro U. destruct (coord_eqb (target move) p) eqn:E.
  - apply coord_eqb_eq in E. subst p.
    destruct (liveAt cs (target move)) eqn:L; simpl.
    + destruct (applyMove_live _ _ L) as (l1 & a & l2 & -> & Ka & _ & ->).
      apply uniqueCoords_app_inv in U. destruct U as [_ U].
      destruct (liveAt (l1 ++ l2) (target move)) eqn:L'; [|reflexivity].
      apply liveAt_true_iff in L'. destruct L' as (c & ? & ? & Hc & Kc & _).
      exfalso. apply (U c Hc). congruence.
    + rewrite (applyMove_dead _ _ L). apply liveAt_true_iff.
      exists (flipOf move), (mx move), (my move).
      rewrite in_app_iff. simpl. auto.
  - assert (N : target move <> p).
    { intro K. apply coord_eqb_eq in K. congruence. }
    destruct (liveAt cs p) eqn:L.
    + apply liveAt_true_iff in L. destruct L as (c & a & b & Hc & Kc & Pp).
      apply liveAt_true_iff. exists c, a, b. repeat split; auto.
      apply applyMove_keep; congruence.
    + destruct (liveAt (applyMove cs move) p) eqn:L'; [|reflexivity].
      apply liveAt_true_iff in L'. destruct L' as (c & a & b & Hc & Kc & Pp).
      apply applyMove_In in Hc. destruct Hc as [Hc | ->].
      * assert (T : liveAt cs p = true)
          by (apply liveAt_true_iff; exists c, a, b; auto).
        congruence.
      * exfalso. apply N. exact Kc.
Qed.

(** The liveness of a coordinate after a batch is its liveness before,
    flipped once per move aimed at it. *)
Lemma applyMoves_liveAt (turnMoves : list Move) (cs : list Cell) (p : coord) :
  uniqueCoords cs ->
  liveAt (applyMoves cs turnMoves) p =
  xorb (liveAt cs p) (Nat.odd (togglesAt p turnMoves)).
Proof.
  revert cs. induction turnMoves as [|m ms IH]; intros cs U; simpl.
  - now rewrite xorb_false_r.
  - rewrite IH by now apply applyMove_unique.
    rewrite applyMove_liveAt by assumption.
    unfold togglesAt. simpl. fold (togglesAt p ms).
    destruct (coord_eqb (target m) p); [|reflexivity].
    simpl length. fold (togglesAt p ms).
    rewrite Nat.odd_succ, <- Nat.negb_odd.
    now destruct (liveAt cs p), (Nat.odd (togglesAt p ms)).
Qed.

Lemma applyMoves_In (turnMoves : list Move) (cs : list Cell) (c : Cell) :
  In c (applyMoves cs turnMoves) ->
  In c cs \/ exists m, In m turnMoves /\ c = flipOf m.
Proof.
  revert cs. induction turnMoves as [|m ms IH]; intros cs H; simpl in *; auto.
  apply IH in H. destruct H as [H | (m' & Hm & ->)]; [|eauto].
  apply applyMove_In in H. destruct H as [H | ->]; eauto.
Qed.

Lemma applyMoves_keep (turnMoves : list Move) (cs : list Cell) (c : Cell) :
  In c cs -> togglesAt (key c) turnMoves = O -> In c (applyMoves cs turnMoves).
Proof.
  revert cs. induction turnMoves as [|m ms IH]; intros cs H T; simpl; auto.
  unfold togglesAt in T. simpl in T.
  destruct (coord_eqb (target m) (key c)) eqn:E; [discriminate|].
  apply IH; [|exact T]. apply applyMove_keep; [assumption|].
  intro K. rewrite K in E. 
  assert (coord_eqb (target m) (target m) = true) by now apply coord_eqb_eq.
  congruence.
Qed.

(** ** The neighbourhood loops *)

Lemma forShifts_shifts {S : Type} (body : Z -> Z -> S -> S) (s : S) :
  forShifts body s = fold_left (fun s ij => body (fst ij) (snd ij) s) shifts s.
Proof. reflexivity. Qed.

Lemma shifts_eq :
  shifts = [(-1, -1); (-1, 0); (-1, 1); (0, -1); (0, 1); (1, -1); (1, 0); (1, 1)].
Proof. reflexivity. Qed.

Lemma forShiftsM_shifts {S : Type} (body : Z -> Z -> S -> result S) (s : S) :
  forShiftsM body s = foldM (fun s ij => body (fst ij) (snd ij) s) shifts s.
Proof.
  unfold forShiftsM. rewrite shifts_eq. unfold offsets. simpl.
  repeat (match goal with
          | |- context [body ?i ?j ?t] =>
              destruct (body i j t); simpl; try reflexivity
          end).
Qed.

Lemma find_ext {A : Type} (p q : A -> bool) (l : list A) :
  (forall a, p a = q a) -> find p l = find q l.
Proof.
  intro E. induction l as [|a l IH]; simpl; [reflexivity|].
  rewrite E, IH. reflexivity.
Qed.

Lemma occupant_key (cs : list Cell) (c : Cell) :
  occupant cs (key c) = find (fun d => equals d c) cs.
Proof.
  unfold occupant. apply find_ext. intro d. apply equals_key, key_at_coord.
Qed.

Lemma occupant_findIndex (cs : list Cell) (c d : Cell) :
  match findIndex (fun cell => equals cell c) cs with
  | Some k => occupant cs (key c) = Some (nth k cs d) /\ isAlive cs c = true
  | None => occupant cs (key c) = None /\ isAlive cs c = false
  end.
Proof.
  rewrite occupant_key. unfold isAlive.
  pose proof (findIndex_find (fun cell => equals cell c) cs d) as F.
  destruct (findIndex _ cs); auto.
Qed.

Lemma occupant_Some (cs : list Cell) (p : coord) (c : Cell) :
  occupant cs p = Some c -> In c cs /\ key c = p /\ liveAt cs p = true.
Proof.
  unfold occupant. intro F. apply find_some in F. destruct F as [Hc E].
  pose proof (equals_same_key _ _ E) as K. rewrite key_at_coord in K.
  repeat split; auto. unfold liveAt. apply isAlive_true_iff. eauto.
Qed.

Lemma occupant_None (cs : list Cell) (p : coord) :
  occupant cs p = None <-> liveAt cs p = false.
Proof.
  unfold occupant, liveAt. rewrite isAlive_false_iff. split.
  - intros F d Hd. exact (find_none _ _ F d Hd).
  - intro H. destruct (find _ cs) eqn:F; [|reflexivity].
    apply find_some in F. destruct F as [Hc E]. rewrite (H _ Hc) in E.
    discriminate.
Qed.

Section Neighbourhood.

Variable n : Z.
Variable cs : list Cell.

Lemma birthStep_fold (neighbour : Cell) (l : list (Z * Z)) (k : Z)
  (tmp : list Cell) :
  let qs :=
    map (fun ij => key (shifted n (at_coord (key neighbour)) (fst ij) (snd ij))) l
  in
  fold_left (fun st ij => birthStep n cs neighbour (fst ij) (snd ij) st) l (k, tmp)
  = (k + Z.of_nat (length (filter (liveAt cs) qs)),
     tmp ++ flat_map (occupantList cs) qs).
Proof.
  revert k tmp. induction l as [|[i j] l IH]; intros k tmp;
    cbn [fold_left map flat_map filter fst snd].
  - simpl. now rewrite Z.add_0_r, app_nil_r.
  - rewrite (shifted_key n (at_coord (key neighbour)) neighbour)
      by apply key_at_coord.
    rewrite liveAt_key. unfold occupantList in *. unfold birthStep at 2.
    pose proof (occupant_findIndex cs (shifted n neighbour i j)
                  (shifted n neighbour i j)) as F.
    cbv zeta.
    destruct (findIndex _ cs) as [idx|]; destruct F as [-> ->].
    + rewrite IH. cbn [length app]. rewrite <- app_assoc.
      f_equal. lia.
    + rewrite IH. reflexivity.
Qed.

(** [shouldBeBorn] counts the live neighbour coordinates and collects
    their occupants. *)
Lemma shouldBeBorn_spec (neighbour : Cell) :
  shouldBeBorn n cs neighbour
  = ((liveNeighbourCount n cs (key neighbour) =? 3)%nat,
     liveNeighbours n cs (key neighbour)).
Proof.
  unfold shouldBeBorn. rewrite forShifts_shifts.
  change (fold_left _ shifts (0, []))
    with (fold_left
            (fun st ij => birthStep n cs neighbour (fst ij) (snd ij) st)
            shifts (0, [])).
  rewrite birthStep_fold. simpl app.
  unfold liveNeighbourCount, liveNeighbours, neighbourCoords.
  f_equal.
  set (c := length _).
  destruct (Nat.eqb_spec c 3) as [->|N]; [reflexivity|].
  apply Z.eqb_neq. lia.
Qed.

Lemma getNeighboursOf_spec (cell : Cell) :
  getNeighboursOf n cs cell
  = flat_map (neighbourSlot cs) (neighbourCoords n (key cell)).
Proof.
  unfold getNeighboursOf. rewrite forShifts_shifts.
  unfold neighbourCoords.
  set (body := fun (s : list Cell) (ij : Z * Z) => _).
  assert (G : forall l acc,
    fold_left body l acc
    = acc ++ flat_map (neighbourSlot cs)
        (map (fun ij => key (shifted n (at_coord (key cell)) (fst ij) (snd ij))) l)).
  { induction l as [|[i j] l IH]; intro acc; cbn [fold_left map flat_map].
    - now rewrite app_nil_r.
    - rewrite IH. unfold body at 1. cbn [fst snd].
      rewrite (shifted_key n (at_coord (key cell)) cell) by apply key_at_coord.
      unfold neighbourSlot at 2, cellsAt.
      assert (K : at_coord (key (shifted n cell i j)) = shifted n cell i j)
        by reflexivity.
      rewrite K. destruct (negb _); now rewrite <- app_assoc. }
  apply G.
Qed.

Lemma cellsAt_alive (q : coord) (c : Cell) :
  In c (cellsAt cs q) -> isAlive cs c = true.
Proof.
  unfold cellsAt. rewrite filter_In. intros [Hc E]. apply isAlive_true_iff.
  exists c. split; [assumption|]. apply equals_true_iff in E.
  destruct E as (a & b & K & _). apply equals_true_iff. eauto.
Qed.

Lemma filter_all {A : Type} (p : A -> bool) (l : list A) :
  (forall a, In a l -> p a = true) -> filter p l = l.
Proof.
  induction l as [|a l IH]; intro H; simpl; [reflexivity|].
  rewrite (H a) by (left; reflexivity). f_equal. apply IH.
  intros; apply H; now right.
Qed.

Lemma neighbourSlot_alive (q : coord) :
  length (filter (isAlive cs) (neighbourSlot cs q)) = length (cellsAt cs q).
Proof.
  unfold neighbourSlot. destruct (cellsAt cs q) as [|c l] eqn:F;
    cbn [length Nat.eqb negb].
  - simpl. replace (isAlive cs (at_coord q)) with false; [reflexivity|].
    symmetry. apply isAlive_false_iff. intros d Hd.
    destruct (equals d (at_coord q)) eqn:E; [|reflexivity].
    assert (I : In d (cellsAt cs q)) by (apply filter_In; auto).
    rewrite F in I. destruct I.
  - rewrite filter_all; [reflexivity|].
    intros a Ha. apply cellsAt_alive with q. now rewrite F.
Qed.

(** The number [getAliveNeighboursOf] returns: the live cells at the
    eight neighbour coordinates, each coordinate taken as often as it
    occurs. *)
Lemma getAliveNeighboursOf_length (cell : Cell) :
  length (getAliveNeighboursOf n cs cell)
  = list_sum (map (fun q => length (cellsAt cs q)) (neighbourCoords n (key cell))).
Proof.
  unfold getAliveNeighboursOf. rewrite getNeighboursOf_spec.
  induction (neighbourCoords n (key cell)) as [|q qs IH]; [reflexivity|].
  cbn [flat_map map]. rewrite filter_app, length_app, IH, neighbourSlot_alive.
  reflexivity.
Qed.

(** With unique coordinates a coordinate holds at most one live cell. *)
Lemma cellsAt_unique (q : coord) :
  uniqueCoords cs ->
  length (cellsAt cs q) = if liveAt cs q then 1%nat else 0%nat.
Proof.
  unfold liveAt, cellsAt. generalize (at_coord q) as p. intros p.
  unfold uniqueCoords. induction cs as [|c l IH]; intro U; simpl.
  - reflexivity.
  - inversion U as [|k ks Nk Uk]; subst.
    unfold isAlive. simpl. destruct (equals c p) eqn:E.
    + simpl. f_equal.
      assert (D : filter (fun oldCell => equals oldCell p) l = []).
      { destruct (filter _ l) as [|d l'] eqn:F; [reflexivity|].
        assert (I : In d (filter (fun oldCell => equals oldCell p) l))
          by (rewrite F; now left).
        apply filter_In in I. destruct I as [Hd Ed].
        exfalso. apply Nk.
        apply equals_same_key in E, Ed. rewrite E, <- Ed.
        now apply in_map. }
      now rewrite D.
    + rewrite (IH Uk). unfold isAlive.
      destruct (findIndex _ l); reflexivity.
Qed.

Lemma list_sum_indicator {A : Type} (p : A -> bool) (l : list A) :
  list_sum (map (fun a => if p a then 1%nat else 0%nat) l) = length (filter p l).
Proof.
  induction l as [|a l IH]; simpl; [reflexivity|].
  destruct (p a); simpl; now rewrite IH.
Qed.

(** On a grid with unique coordinates the survival count is the number
    of live neighbour coordinates. *)
Lemma getAliveNeighboursOf_count (cell : Cell) :
  uniqueCoords cs ->
  length (getAliveNeighboursOf n cs cell) = liveNeighbourCount n cs (key cell).
Proof.
  intro U. rewrite getAliveNeighboursOf_length.
  unfold liveNeighbourCount. rewrite <- list_sum_indicator.
  f_equal. apply map_ext. intro q. now apply cellsAt_unique.
Qed.

End Neighbourhood.

(** ** The candidate scan *)

Section Scan.

Variable n : Z.
Variable cs : list Cell.

Lemma neighbourCoords_shifted (c : Cell) (ij : Z * Z) :
  In ij shifts ->
  In (key (shifted n c (fst ij) (snd ij))) (neighbourCoords n (key c)).
Proof.
  intro H. unfold neighbourCoords. apply in_map_iff. exists ij.
  split; [|assumption].
  now rewrite (shifted_key n (at_coord (key c)) c) by apply key_at_coord.
Qed.

Lemma neighbourCoords_inv (c : Cell) (q : coord) :
  In q (neighbourCoords n (key c)) ->
  exists ij, In ij shifts /\ q = key (shifted n c (fst ij) (snd ij)).
Proof.
  unfold neighbourCoords. rewrite in_map_iff. intros (ij & <- & H).
  exists ij. split; [assumption|].
  now rewrite (shifted_key n (at_coord (key c)) c) by apply key_at_coord.
Qed.

Lemma scanShift_step (currentCell : Cell) (st st' : scanState) (ij : Z * Z) :
  In currentCell cs -> In ij shifts ->
  scanInv n cs st ->
  scanShift n cs currentCell (fst ij) (snd ij) st = Ok st' ->
  scanInv n cs st'
  /\ incl (fst st) (fst st')
  /\ (liveAt cs (key (shifted n currentCell (fst ij) (snd ij))) = true
      \/ In (key (shifted n currentCell (fst ij) (snd ij))) (fst st')).
Proof.
  intros Hc Hij Inv. destruct st as [checked newBorns]. unfold scanShift.
  set (neighbour := shifted n currentCell (fst ij) (snd ij)).
  rewrite liveAt_key.
  destruct (isAlive cs neighbour) eqn:A.
  { intro E. injection E as <-. split; [assumption|].
    split; [apply incl_refl | now left]. }
  destruct (existsb (coord_eqb (key neighbour)) checked) eqn:C.
  { intro E. injection E as <-. split; [assumption|].
    split; [apply incl_refl | right]. now apply existsb_coord_In. }
  assert (Fresh : ~ In (key neighbour) checked).
  { intro K. apply existsb_coord_In in K. congruence. }
  rewrite shouldBeBorn_spec.
  destruct Inv as (I1 & I2 & I3 & I4). cbn [fst snd] in I1, I2, I3, I4.
  destruct (Nat.eqb_spec (liveNeighbourCount n cs (key neighbour)) 3) as [B|B].
  - unfold setOwner. destruct (most _) as [o|e] eqn:M; cbn [bind];
      [|discriminate].
    assert (Kc : key {| owner := o; x := x neighbour; y := y neighbour |}
                 = key neighbour) by reflexivity.
    assert (Oc : owner {| owner := o; x := x neighbour; y := y neighbour |} = o)
      by reflexivity.
    revert Kc Oc.
    generalize {| owner := o; x := x neighbour; y := y neighbour |} as c.
    intros c Kc Oc E. injection E as <-. cbn [fst snd].
    split; [|split].
    + split; [|split; [|split]]; cbn [fst snd].
      * intros d Hd. apply in_app_iff in Hd. destruct Hd as [Hd|[<-|[]]].
        -- destruct (I1 d Hd) as [? ?]. split; [|assumption].
           apply in_app_iff. now left.
        -- split; [apply in_app_iff; right; left; now symmetry|].
           unfold bornAt. rewrite Kc, Oc, liveAt_key. repeat split; auto.
           exists currentCell. split; [assumption|].
           now apply neighbourCoords_shifted.
      * intros q Hq Q. apply in_app_iff in Hq. destruct Hq as [Hq|[<-|[]]].
        -- destruct (I2 q Hq Q) as (d & Hd & Kd). exists d.
           split; [apply in_app_iff; now left | assumption].
        -- exists c. split; [apply in_app_iff; right; now left | assumption].
      * rewrite map_app. cbn [map]. apply NoDup_app; [assumption | | ].
        -- repeat constructor. intros [].
        -- intros k Hk [<-|[]]. apply in_map_iff in Hk.
           destruct Hk as (d & Kd & Hd). apply Fresh.
           rewrite <- Kc, <- Kd. now apply I1.
      * apply NoDup_app; [assumption | repeat constructor; intros [] | ].
        intros k Hk [<-|[]]. contradiction.
    + apply incl_appl, incl_refl.
    + right. apply in_app_iff. right. now left.
  - intro E. injection E as <-. cbn [fst snd]. split; [|split].
    + split; [|split; [|split]]; cbn [fst snd].
      * intros d Hd. destruct (I1 d Hd) as [? ?]. split; [|assumption].
        apply in_app_iff. now left.
      * intros q Hq Q. apply in_app_iff in Hq. destruct Hq as [Hq|[<-|[]]].
        -- now apply I2.
        -- contradiction.
      * assumption.
      * apply NoDup_app; [assumption | repeat constructor; intros [] | ].
        intros k Hk [<-|[]]. contradiction.
    + apply incl_appl, incl_refl.
    + right. apply in_app_iff. right. now left.
Qed.

Lemma scanCell_steps (currentCell : Cell) (l : list (Z * Z))
  (st st' : scanState) :
  In currentCell cs -> incl l shifts ->
  scanInv n cs st ->
  foldM (fun st ij => scanShift n cs currentCell (fst ij) (snd ij) st) l st
  = Ok st' ->
  scanInv n cs st'
  /\ incl (fst st) (fst st')
  /\ (forall ij, In ij l ->
        liveAt cs (key (shifted n currentCell (fst ij) (snd ij))) = true
        \/ In (key (shifted n currentCell (fst ij) (snd ij))) (fst st')).
Proof.
  intros Hc. revert st. induction l as [|ij l IH]; intros st Hl Inv; simpl.
  - intro E. injection E as <-. split; [assumption|].
    split; [apply incl_refl | intros ? []].
  - destruct (scanShift n cs currentCell (fst ij) (snd ij) st) as [st1|e] eqn:S1;
      simpl; [|discriminate].
    intro E.
    destruct (scanShift_step currentCell st st1 ij Hc (Hl ij (or_introl eq_refl))
                Inv S1) as (Inv1 & Mono1 & Here).
    destruct (IH st1 (fun a Ha => Hl a (or_intror Ha)) Inv1 E)
      as (Inv' & Mono' & Rest).
    split; [assumption|]. split; [eapply incl_tran; eassumption|].
    intros ij' [<-|H']; [|now apply Rest].
    destruct Here as [?|?]; [now left | right; now apply Mono'].
Qed.

Lemma scan_steps (l : list Cell) (st st' : scanState) :
  incl l cs ->
  scanInv n cs st ->
  foldM (scanCell n cs) l st = Ok st' ->
  scanInv n cs st'
  /\ incl (fst st) (fst st')
  /\ (forall c q, In c l -> In q (neighbourCoords n (key c)) ->
        liveAt cs q = true \/ In q (fst st')).
Proof.
  revert st. induction l as [|c l IH]; intros st Hl Inv; simpl.
  - intro E. injection E as <-. split; [assumption|].
    split; [apply incl_refl | intros ? ? []].
  - destruct (scanCell n cs st c) as [st1|e] eqn:S1; simpl; [|discriminate].
    intro E. unfold scanCell in S1. rewrite forShiftsM_shifts in S1.
    destruct (scanCell_steps c shifts st st1 (Hl c (or_introl eq_refl))
                (incl_refl _) Inv S1) as (Inv1 & Mono1 & Here).
    destruct (IH st1 (fun a Ha => Hl a (or_intror Ha)) Inv1 E)
      as (Inv' & Mono' & Rest).
    split; [assumption|]. split; [eapply incl_tran; eassumption|].
    intros d q [<-|Hd] Hq; [|now apply Rest with d].
    apply neighbourCoords_inv in Hq. destruct Hq as (ij & Hij & ->).
    destruct (Here ij Hij) as [?|?]; [now left | right; now apply Mono'].
Qed.

(** The newborns of a completed scan are exactly the dead neighbour
    coordinates of live cells with three live neighbour coordinates, each
    once. *)
Lemma scan_spec (st : scanState) :
  scan n cs = Ok st ->
  (forall c, In c (snd st) -> bornAt n cs c)
  /\ (forall live q, In live cs -> In q (neighbourCoords n (key live)) ->
        liveAt cs q = false -> liveNeighbourCount n cs q = 3%nat ->
        exists c, In c (snd st) /\ key c = q)
  /\ NoDup (map key (snd st))
  /\ NoDup (fst st).
Proof.
  intro E. unfold scan in E.
  assert (Inv0 : scanInv n cs ([], [])).
  { split; [|split; [|split]]; simpl;
      [intros ? [] | intros ? [] | constructor | constructor]. }
  destruct (scan_steps cs ([], []) st (incl_refl _) Inv0 E)
    as ((I1 & I2 & I3 & I4) & _ & Cover).
  split; [|split; [|split]]; [| |assumption|assumption].
  - intros c Hc. now apply I1.
  - intros live q Hl Hq Dead Three.
    destruct (Cover live q Hl Hq) as [A|K]; [congruence|].
    now apply I2.
Qed.

End Scan.

(** ** The ownership vote *)

Lemma get_set (o : object) (k v k' : Z) :
  get (set o k v) k' = if k =? k' then Some v else get o k'.
Proof.
  induction o as [|[k0 v0] o IH]; simpl.
  - reflexivity.
  - destruct (Z.eqb_spec k0 k) as [->|N]; simpl.
    + destruct (Z.eqb_spec k k'); reflexivity.
    + rewrite IH. destruct (Z.eqb_spec k0 k') as [->|N'];
        destruct (Z.eqb_spec k k'); try reflexivity. congruence.
Qed.

Lemma get_None_iff (o : object) (k : Z) :
  get o k = None <-> ~ In k (map fst o).
Proof.
  induction o as [|[k0 v0] o IH]; simpl.
  - tauto.
  - destruct (Z.eqb_spec k0 k) as [->|N].
    + split; [discriminate | tauto].
    + rewrite IH. tauto.
Qed.

Lemma insertSorted_In (k a : Z) (l : list Z) :
  In a (insertSorted k l) <-> a = k \/ In a l.
Proof.
  induction l as [|h t IH]; simpl.
  - intuition.
  - destruct (k <=? h); simpl; [intuition | rewrite IH; intuition].
Qed.

Lemma sortAsc_In (a : Z) (l : list Z) : In a (sortAsc l) <-> In a l.
Proof.
  induction l as [|h t IH]; simpl; [tauto|].
  rewrite insertSorted_In, IH. intuition.
Qed.

Lemma keys_In (o : object) (k : Z) : In k (keys o) <-> get o k <> None.
Proof.
  unfold keys. rewrite in_app_iff, sortAsc_In, !filter_In, get_None_iff.
  destruct (in_dec Z.eq_dec k (map fst o)) as [I|I];
    destruct (isArrayIndex k); simpl; intuition discriminate.
Qed.

Lemma tally_get (o : object) (c : Cell) (k : Z) :
  get (tally o c) k =
  if negb (owner c =? -1) && (owner c =? k)
  then Some (valueOr0 (get o k) + 1)
  else get o k.
Proof.
  unfold tally. destruct (negb (owner c =? -1)); simpl; [|reflexivity].
  rewrite get_set. destruct (Z.eqb_spec (owner c) k) as [->|]; [|reflexivity].
  f_equal. destruct (get o k) as [v|]; simpl; [|reflexivity].
  destruct (Z.eqb_spec v 0); lia.
Qed.

Lemma fold_tally_get (l : list Cell) (o : object) (k : Z) :
  get (fold_left tally l o) k =
  if (k =? -1) || (votes k l =? 0)%nat
  then get o k
  else Some (valueOr0 (get o k) + Z.of_nat (votes k l)).
Proof.
  revert o. induction l as [|c l IH]; intro o.
  - simpl. now rewrite orb_true_r.
  - cbn [fold_left]. rewrite IH, tally_get.
    assert (V : votes k (c :: l)
                = if owner c =? k then S (votes k l) else votes k l).
    { unfold votes. simpl. now destruct (owner c =? k). }
    rewrite V. clear V IH.
    destruct (Z.eqb_spec k (-1)) as [Ek|Nk]; simpl.
    + destruct (Z.eqb_spec (owner c) (-1)) as [E1|N1]; simpl; [reflexivity|].
      destruct (Z.eqb_spec (owner c) k); [congruence | reflexivity].
    + destruct (Z.eqb_spec (owner c) k) as [Ec|Nc]; simpl.
      * destruct (Z.eqb_spec (owner c) (-1)); [congruence|]. simpl.
        destruct (Nat.eqb_spec (votes k l) 0) as [E0|N0]; simpl;
          f_equal; lia.
      * rewrite andb_false_r. reflexivity.
Qed.

(** The tally object after the [forEach]: a property per owner other
    than the sentinel that has a vote, holding the number of votes. *)
Lemma playersCount_get (l : list Cell) (k : Z) :
  get (fold_left tally l []) k =
  if (k =? -1) || (votes k l =? 0)%nat then None
  else Some (Z.of_nat (votes k l)).
Proof. rewrite fold_tally_get. simpl. reflexivity. Qed.


Lemma playersCount_key (l : list Cell) (k : Z) :
  In k (keys (fold_left tally l [])) <-> k <> -1 /\ votes k l <> O.
Proof.
  rewrite keys_In, playersCount_get.
  destruct (Z.eqb_spec k (-1)), (Nat.eqb_spec (votes k l) 0); simpl;
    intuition congruence.
Qed.

Lemma parseInt_small (k : Z) : Z.abs k < 10 ^ 21 -> parseInt k = k.
Proof.
  intro H. unfold parseInt. destruct (Z.ltb_spec (Z.abs k) (10 ^ 21)); [reflexivity|lia].
Qed.

Lemma most_unfold (l : list Cell) :
  most l =
  match rev (keys (fold_left tally l [])) with
  | [] => Throw TypeError
  | a :: rest =>
      Ok (parseInt
            (fold_left
               (fun u v =>
                  if gt (get (fold_left tally l []) u)
                        (get (fold_left tally l []) v)
                  then u else v)
               rest a))
  end.
Proof.
  unfold most, reduce.
  destruct (rev (keys (fold_left tally l []))); reflexivity.
Qed.


Lemma votes_pos_iff (l : list Cell) (k : Z) :
  votes k l <> O <-> exists c, In c l /\ owner c = k.
Proof.
  unfold votes. split.
  - intro H. destruct (filter _ l) as [|c l'] eqn:F; [contradiction|].
    assert (I : In c (filter (fun c => owner c =? k) l)) by (rewrite F; now left).
    apply filter_In in I. destruct I as [I E]. apply Z.eqb_eq in E. eauto.
  - intros (c & Hc & E) Z0. apply length_zero_iff_nil in Z0.
    assert (I : In c (filter (fun c => owner c =? k) l)).
    { apply filter_In. split; [assumption | now apply Z.eqb_eq]. }
    rewrite Z0 in I. destruct I.
Qed.

(** [most] throws exactly when no cell of its argument has an owner other
    than the sentinel: [reduce] is then applied to an empty array. *)
Lemma most_throws_iff (l : list Cell) :
  most l = Throw TypeError <-> forall c, In c l -> owner c = -1.
Proof.
  rewrite most_unfold. set (pc := fold_left tally l []).
  destruct (rev (keys pc)) as [|a rest] eqn:R.
  - split; [intros _|reflexivity]. intros c Hc.
    destruct (Z.eq_dec (owner c) (-1)) as [|N]; [assumption|].
    assert (K : In (owner c) (keys pc)).
    { apply playersCount_key. split; [assumption|].
      apply votes_pos_iff. eauto. }
    apply in_rev in K. rewrite R in K. destruct K.
  - split; [discriminate|]. intro H. exfalso.
    assert (K : In a (keys pc)) by (apply in_rev; rewrite R; now left).
    apply playersCount_key in K. destruct K as [N V].
    apply votes_pos_iff in V. destruct V as (c & Hc & E).
    rewrite (H c Hc) in E. congruence.
Qed.

Lemma liveNeighbours_length (n : Z) (cs : list Cell) (p : coord) :
  length (liveNeighbours n cs p) = liveNeighbourCount n cs p.
Proof.
  unfold liveNeighbours, liveNeighbourCount.
  induction (neighbourCoords n p) as [|q qs IH]; [reflexivity|].
  cbn [flat_map filter]. rewrite length_app, IH.
  destruct (occupant cs q) as [c|] eqn:O.
  - apply occupant_Some in O. destruct O as (_ & _ & ->). reflexivity.
  - apply occupant_None in O. rewrite O. reflexivity.
Qed.

Lemma liveNeighbours_In (n : Z) (cs : list Cell) (p : coord) (c : Cell) :
  In c (liveNeighbours n cs p) ->
  In c cs /\ In (key c) (neighbourCoords n p).
Proof.
  unfold liveNeighbours. rewrite in_flat_map. intros (q & Hq & Hc).
  destruct (occupant cs q) as [d|] eqn:O; [|destruct Hc].
  destruct Hc as [<-|[]]. apply occupant_Some in O.
  destruct O as (I & K & _). rewrite K. auto.
Qed.

(** ** The transition as a whole *)

Lemma next_Ok (g g' : Grid) (turnMoves : list Move) :
  next g turnMoves = Ok g' ->
  exists st,
    scan (size g) (postMoves g turnMoves) = Ok st
    /\ size g' = size g
    /\ cells g' =
       snd st ++ filter (isHealthy (size g) (postMoves g turnMoves))
                   (postMoves g turnMoves).
Proof.
  unfold next. fold (postMoves g turnMoves).
  destruct (scan _ _) as [st|e]; simpl; [|discriminate].
  intro E. injection E as <-. exists st. auto.
Qed.

Lemma wrap_add_Int (n : Z) (v : num) (i a : Z) :
  wrap n (add v i) = Int a -> exists z, v = Int z.
Proof.
  destruct v as [z|]; [eauto|]. discriminate.
Qed.

Lemma shifted_Int (n : Z) (c : Cell) (i j a b : Z) :
  key (shifted n c i j) = (Int a, Int b) ->
  exists u v, key c = (Int u, Int v).
Proof.
  unfold shifted, key. simpl. intro E. injection E as Ex Ey.
  apply wrap_add_Int in Ex, Ey. destruct Ex as (u & ->), Ey as (v & ->).
  eauto.
Qed.

(** A coordinate pair with a live neighbour coordinate is made of
    integers: arithmetic on [NaN] never meets a live cell. *)
Lemma liveNeighbour_Int (n : Z) (cs : list Cell) (c : Cell) :
  liveNeighbourCount n cs (key c) <> O -> exists u v, key c = (Int u, Int v).
Proof.
  unfold liveNeighbourCount. intro H.
  destruct (filter _ _) as [|q l] eqn:F; [contradiction|].
  assert (I : In q (filter (liveAt cs) (neighbourCoords n (key c))))
    by (rewrite F; now left).
  apply filter_In in I. destruct I as [I L].
  apply neighbourCoords_inv in I. destruct I as (ij & _ & ->).
  apply liveAt_true_iff in L. destruct L as (_ & a & b & _ & _ & K).
  now apply shifted_Int in K.
Qed.

Lemma bornAt_Int (n : Z) (cs : list Cell) (c : Cell) :
  bornAt n cs c -> exists u v, key c = (Int u, Int v).
Proof.
  intros (_ & Three & _). apply (liveNeighbour_Int n cs). lia.
Qed.

Lemma list_sum_pos (l : list nat) :
  list_sum l <> O -> exists k, In k l /\ k <> O.
Proof.
  induction l as [|h t IH]; simpl; [contradiction|].
  destruct h as [|h]; simpl.
  - intro H. destruct (IH H) as (k & Hk & Nk). eauto.
  - intros _. exists (S h). split; [now left | discriminate].
Qed.

Lemma isHealthy_iff (n : Z) (cs : list Cell) (c : Cell) :
  isHealthy n cs c = true
  <-> length (getAliveNeighboursOf n cs c) = 2%nat
      \/ length (getAliveNeighboursOf n cs c) = 3%nat.
Proof.
  unfold isHealthy. simpl. rewrite orb_false_r, orb_true_iff, !Nat.eqb_eq.
  reflexivity.
Qed.

Lemma isHealthy_Int (n : Z) (cs : list Cell) (c : Cell) :
  isHealthy n cs c = true -> exists u v, key c = (Int u, Int v).
Proof.
  rewrite isHealthy_iff, getAliveNeighboursOf_length. intro H.
  destruct (list_sum_pos
              (map (fun q => length (cellsAt cs q)) (neighbourCoords n (key c))))
    as (k & Hk & Nk); [lia|].
  apply in_map_iff in Hk. destruct Hk as (q & <- & Hq).
  destruct (cellsAt cs q) as [|d l] eqn:F; [contradiction|].
  assert (I : In d (cellsAt cs q)) by (rewrite F; now left).
  unfold cellsAt in I. apply filter_In in I. destruct I as [_ E].
  apply equals_true_iff in E. destruct E as (a & b & _ & K).
  rewrite key_at_coord in K. subst q.
  apply neighbourCoords_inv in Hq. destruct Hq as (ij & _ & K).
  symmetry in K. now apply shifted_Int in K.
Qed.

Lemma liveAt_In (cs : list Cell) (c : Cell) :
  In c cs -> (exists u v, key c = (Int u, Int v)) -> liveAt cs (key c) = true.
Proof.
  intros H (u & v & K). apply liveAt_true_iff. exists c, u, v. auto.
Qed.

Lemma uniqueCoords_inj (cs : list Cell) (c d : Cell) :
  uniqueCoords cs -> In c cs -> In d cs -> key c = key d -> c = d.
Proof.
  unfold uniqueCoords. induction cs as [|h t IH]; simpl; [tauto|].
  intros U Hc Hd K. inversion U as [|k ks Nk Uk]; subst.
  destruct Hc as [<-|Hc], Hd as [<-|Hd]; auto.
  - exfalso. apply Nk. rewrite K. now apply in_map.
  - exfalso. apply Nk. rewrite <- K. now apply in_map.
Qed.

Lemma uniqueCoords_filter (p : Cell -> bool) (cs : list Cell) :
  uniqueCoords cs -> uniqueCoords (filter p cs).
Proof.
  unfold uniqueCoords. induction cs as [|h t IH]; simpl; [auto|].
  intro U. inversion U as [|k ks Nk Uk]; subst.
  destruct (p h); simpl; [|now apply IH].
  constructor; [|now apply IH].
  intro I. apply Nk. apply in_map_iff in I. destruct I as (d & K & Hd).
  apply filter_In in Hd. rewrite <- K. apply in_map. tauto.
Qed.

(** Newborns and survivors never share a coordinate pair. *)
Lemma born_survivor_apart (n : Z) (cs : list Cell) (c s : Cell) :
  bornAt n cs c -> In s cs -> key c <> key s.
Proof.
  intros B Hs K. destruct (bornAt_Int _ _ _ B) as (u & v & Kc).
  destruct B as (Dead & _).
  assert (L : liveAt cs (key s) = true).
  { apply liveAt_In; [assumption|]. exists u, v. congruence. }
  congruence.
Qed.

Lemma togglesAt_In (m : Move) (turnMoves : list Move) :
  In m turnMoves -> togglesAt (target m) turnMoves <> O.
Proof.
  intros H Z0. unfold togglesAt in Z0. apply length_zero_iff_nil in Z0.
  assert (I : In m (filter (fun m' => coord_eqb (target m') (target m)) turnMoves)).
  { apply filter_In. split; [assumption | now apply coord_eqb_eq]. }
  rewrite Z0 in I. destruct I.
Qed.

(** ** Wrap-around on integers *)

Lemma wrap_Int (n z : Z) : n <> 0 -> wrap n (Int z) = Int (wrapped n z).
Proof.
  intro N. unfold wrap, wrapped. simpl.
  destruct (z <? 0); [reflexivity|].
  destruct (Z.eqb_spec n 0); [contradiction | reflexivity].
Qed.

Lemma wrapped_bound (n a i : Z) :
  0 < n -> 0 <= a < n -> -1 <= i <= 1 -> 0 <= wrapped n (a + i) < n.
Proof.
  intros N A I. unfold wrapped. destruct (Z.ltb_spec (a + i) 0).
  - lia.
  - apply Z.rem_bound_pos; lia.
Qed.

Lemma shifts_range (ij : Z * Z) :
  In ij shifts -> -1 <= fst ij <= 1 /\ -1 <= snd ij <= 1.
Proof.
  rewrite shifts_eq. simpl. intuition (subst; simpl; lia).
Qed.

(** The eight neighbour coordinates of an in-bounds pair, spelled out. *)
Lemma neighbourCoords_Int (n a b : Z) :
  n <> 0 ->
  neighbourCoords n (Int a, Int b) =
  map (fun ij => (Int (wrapped n (a + fst ij)), Int (wrapped n (b + snd ij))))
    shifts.
Proof.
  intro N. unfold neighbourCoords. apply map_ext. intros [i j].
  unfold shifted, key. simpl. now rewrite !wrap_Int.
Qed.

Lemma neighbourCoords_inBounds (n : Z) (c : Cell) (q : coord) :
  0 < n -> inBounds n c -> In q (neighbourCoords n (key c)) ->
  inBounds n (at_coord q).
Proof.
  intros N (a & b & K & A & B). rewrite K, neighbourCoords_Int by lia.
  intro H. apply in_map_iff in H. destruct H as (ij & <- & Hij).
  apply shifts_range in Hij. destruct Hij as [I J].
  exists (wrapped n (a + fst ij)), (wrapped n (b + snd ij)).
  split; [reflexivity|]. split; apply wrapped_bound; assumption.
Qed.

Lemma inBounds_key (n : Z) (c d : Cell) :
  key c = key d -> inBounds n c -> inBounds n d.
Proof.
  intros K (a & b & Kc & A & B). exists a, b. rewrite <- K. auto.
Qed.

Lemma applyMoves_inBounds (n : Z) (turnMoves : list Move) (cs : list Cell) :
  (forall c, In c cs -> inBounds n c) ->
  (forall m, In m turnMoves -> 0 <= mx m < n /\ 0 <= my m < n) ->
  forall c, In c (applyMoves cs turnMoves) -> inBounds n c.
Proof.
  intros Hcs Hms c Hc. apply applyMoves_In in Hc.
  destruct Hc as [Hc | (m & Hm & ->)]; [now apply Hcs|].
  exists (mx m), (my m). split; [reflexivity|]. now apply Hms.
Qed.

(** ** When the transition completes *)

Lemma most_Ok_voter (l : list Cell) (o : Z) :
  most l = Ok o -> exists c, In c l /\ owner c <> unowned.
Proof.
  rewrite most_unfold. set (pc := fold_left tally l []).
  destruct (rev (keys pc)) as [|a rest] eqn:R; [discriminate|]. intros _.
  assert (K : In a (keys pc)) by (apply in_rev; rewrite R; now left).
  apply playersCount_key in K. destruct K as [N V].
  apply votes_pos_iff in V. destruct V as (c & Hc & E).
  exists c. split; [assumption|]. unfold unowned. congruence.
Qed.

Lemma scanShift_total (n : Z) (cs : list Cell) (currentCell : Cell)
  (st : scanState) (ij : Z * Z) :
  votable n cs -> In currentCell cs -> In ij shifts ->
  exists st', scanShift n cs currentCell (fst ij) (snd ij) st = Ok st'.
Proof.
  intros Votable Hc Hij. destruct st as [checked newBorns]. unfold scanShift.
  destruct (isAlive cs _) eqn:A; [eauto|].
  destruct (existsb _ checked); [eauto|].
  rewrite shouldBeBorn_spec.
  set (q := key (shifted n currentCell (fst ij) (snd ij))).
  destruct (Nat.eqb_spec (liveNeighbourCount n cs q) 3) as [B|B]; [|eauto].
  unfold setOwner. destruct (most (liveNeighbours n cs q)) as [o|[]] eqn:M;
    simpl; [eauto|].
  exfalso. rewrite most_throws_iff in M.
  assert (Hq : In q (neighbourCoords n (key currentCell)))
    by now apply neighbourCoords_shifted.
  assert (Dead : liveAt cs q = false) by (unfold q; now rewrite liveAt_key).
  destruct (Votable currentCell q Hc Hq Dead B) as (d & Hd & Od).
  apply Od. now apply M.
Qed.

Lemma foldM_total {A S : Type} (body : S -> A -> result S) (l : list A) (s : S) :
  (forall s a, In a l -> exists s', body s a = Ok s') ->
  exists s', foldM body l s = Ok s'.
Proof.
  revert s. induction l as [|a l IH]; intros s T; simpl; [eauto|].
  destruct (T s a (or_introl eq_refl)) as (s1 & ->). simpl.
  apply IH. intros s' b Hb. apply T. now right.
Qed.

Lemma owned_votable (n : Z) (cs : list Cell) :
  (forall c, In c cs -> owner c <> unowned) -> votable n cs.
Proof.
  intros Owned live C _ _ _ Three.
  pose proof (liveNeighbours_length n cs C) as L. rewrite Three in L.
  destruct (liveNeighbours n cs C) as [|d l] eqn:E; [discriminate|].
  exists d. split; [now left|]. apply Owned.
  assert (I : In d (liveNeighbours n cs C)) by (rewrite E; now left).
  now apply liveNeighbours_In in I.
Qed.

(** [next] completes exactly when every birth has a voter; otherwise it
    throws a [TypeError] out of [most]. *)
Lemma next_completes_iff (g : Grid) (turnMoves : list Move) :
  (exists g', next g turnMoves = Ok g')
  <-> votable (size g) (postMoves g turnMoves).
Proof.
  split.
  - intros (g' & E) live C Hl HC Dead Three.
    destruct (next_Ok _ _ _ E) as (st & S1 & _ & _).
    destruct (scan_spec _ _ _ S1) as (Born & Complete & _ & _).
    destruct (Complete live C Hl HC Dead Three) as (c & Hc & <-).
    destruct (Born c Hc) as (_ & _ & Vote & _).
    now apply most_Ok_voter in Vote.
  - intro Votable. unfold next. fold (postMoves g turnMoves).
    destruct (foldM_total (scanCell (size g) (postMoves g turnMoves))
                (postMoves g turnMoves) ([], [])) as (st & S1).
    + intros s a Ha. unfold scanCell. rewrite forShiftsM_shifts.
      apply foldM_total. intros s' ij Hij. now apply scanShift_total.
    + unfold scan. rewrite S1. simpl. eauto.
Qed.

(** With no unowned live cell after the moves, [next] does not throw. *)
Lemma next_total (g : Grid) (turnMoves : list Move) :
  (forall c, In c (postMoves g turnMoves) -> owner c <> unowned) ->
  exists g', next g turnMoves = Ok g'.
Proof.
  intro Owned. apply next_completes_iff. now apply owned_votable.
Qed.

(** ** The runs of the test suite *)

(** "game rules basic tests": 3, 3, 1, 0 and 0 live cells. *)
Example basic_tests_trace :
  (g1 <- next blinker firstBatch ;;
   g2 <- next g1 secondBatch ;;
   g3 <- next g2 [] ;;
   g4 <- next g3 [] ;;
   g5 <- next g4 [] ;;
   Ok (map (fun g => length (cells g)) [g1; g2; g3; g4; g5]))
  = Ok [3; 3; 1; 0; 0]%nat.
Proof. reflexivity. Qed.

(** "game rules edge tests": 8, 7 and 14 live cells on the board of
    size 5, with a cell at (0,2) after the first step. *)
Example edge_tests_trace :
  (g1 <- next (mountSnapshot (newGrid 5)
                 [mkMove 1 2 1; mkMove 2 2 1; mkMove 3 2 1])
           [mkMove 4 1 1; mkMove 4 3 1] ;;
   g2 <- next g1 [mkMove 0 1 1; mkMove 4 1 1] ;;
   g3 <- next g2 [mkMove 4 3 1] ;;
   Ok (liveAt (cells g1) (Int 0, Int 2),
       map (fun g => length (cells g)) [g1; g2; g3]))
  = Ok (true, [8; 7; 14]%nat).
Proof. vm_compute. reflexivity. Qed.

(** ** Birth and survival *)

(** C1. Birth test: for a dead coordinate pair [C] next to a live cell of
    the grid after the moves, [shouldBeBorn] answers yes if and only if
    exactly three of the eight wrapped neighbour coordinates of [C] are
    live in the grid after the moves; when [next] completes, its next
    generation holds a cell at [C] under exactly that condition; and
    [next] does complete when no live cell is unowned. *)
Theorem birth_rule (g : Grid) (turnMoves : list Move) (live : Cell)
  (C : coord) :
  In live (postMoves g turnMoves) ->
  In C (neighbourCoords (size g) (key live)) ->
  liveAt (postMoves g turnMoves) C = false ->
  (fst (shouldBeBorn (size g) (postMoves g turnMoves) (at_coord C)) = true
   <-> liveNeighbourCount (size g) (postMoves g turnMoves) C = 3%nat)
  /\ (forall g', next g turnMoves = Ok g' ->
        ((exists c, In c (cells g') /\ key c = C)
         <-> liveNeighbourCount (size g) (postMoves g turnMoves) C = 3%nat))
  /\ ((forall c, In c (postMoves g turnMoves) -> owner c <> unowned) ->
      exists g', next g turnMoves = Ok g').
Proof.
  intros Hl HC Dead. split; [|split].
  - rewrite shouldBeBorn_spec, key_at_coord. cbn [fst]. apply Nat.eqb_eq.
  - intros g' E.
    destruct (next_Ok _ _ _ E) as (st & S1 & _ & ->).
    destruct (scan_spec _ _ _ S1) as (Born & Complete & _ & _).
    split.
    + intros (c & Hc & <-). apply in_app_iff in Hc. destruct Hc as [Hc|Hc].
      * now destruct (Born c Hc) as (_ & Three & _).
      * apply filter_In in Hc. destruct Hc as [Hc Healthy].
        apply isHealthy_Int in Healthy.
        rewrite (liveAt_In _ _ Hc Healthy) in Dead. discriminate.
    + intro Three.
      destruct (Complete live C Hl HC Dead Three) as (c & Hc & K).
      exists c. split; [|assumption]. apply in_app_iff. now left.
  - apply next_total.
Qed.

Lemma birth_rule_witness :
  (exists c, In c (cells blinkerUpright) /\ key c = (Int 3, Int 2))
  <-> liveNeighbourCount (size blinker) (postMoves blinker []) (Int 3, Int 2)
      = 3%nat.
Proof.
  refine (proj1 (proj2 (birth_rule blinker [] (mkCell 1 (Int 3) (Int 3))
                          (Int 3, Int 2) _ _ _)) blinkerUpright _).
  - simpl. auto.
  - simpl. auto.
  - reflexivity.
  - reflexivity.
Defined.

(** C2. Survival test: on a grid with one cell per coordinate pair, a
    cell that is live after the moves passes [isHealthy] if and only if
    two or three of its eight wrapped neighbour coordinates are live after
    the moves; when [next] completes, the cell is in the next generation
    under exactly that condition, and otherwise the next generation has no
    cell on its coordinate pair at all; and [next] does complete, with the
    survivors inside its result, when no live cell is unowned. *)
Theorem survival_rule (g : Grid) (turnMoves : list Move) (c : Cell) :
  uniqueCoords (cells g) ->
  In c (postMoves g turnMoves) ->
  (isHealthy (size g) (postMoves g turnMoves) c = true
   <-> liveNeighbourCount (size g) (postMoves g turnMoves) (key c) = 2%nat
       \/ liveNeighbourCount (size g) (postMoves g turnMoves) (key c) = 3%nat)
  /\ (forall g', next g turnMoves = Ok g' ->
       (In c (cells g')
        <-> liveNeighbourCount (size g) (postMoves g turnMoves) (key c) = 2%nat
            \/ liveNeighbourCount (size g) (postMoves g turnMoves) (key c)
               = 3%nat)
       /\ ((exists d, In d (cells g') /\ key d = key c)
           <-> liveNeighbourCount (size g) (postMoves g turnMoves) (key c)
               = 2%nat
               \/ liveNeighbourCount (size g) (postMoves g turnMoves) (key c)
                  = 3%nat))
  /\ ((forall d, In d (postMoves g turnMoves) -> owner d <> unowned) ->
      exists g',
        next g turnMoves = Ok g'
        /\ (In c (cells g')
            <-> liveNeighbourCount (size g) (postMoves g turnMoves) (key c)
                = 2%nat
                \/ liveNeighbourCount (size g) (postMoves g turnMoves) (key c)
                   = 3%nat)).
Proof.
  intros U Hc.
  assert (U' : uniqueCoords (postMoves g turnMoves))
    by now apply applyMoves_unique.
  assert (Band :
    isHealthy (size g) (postMoves g turnMoves) c = true
    <-> liveNeighbourCount (size g) (postMoves g turnMoves) (key c) = 2%nat
        \/ liveNeighbourCount (size g) (postMoves g turnMoves) (key c)
           = 3%nat).
  { rewrite <- (getAliveNeighboursOf_count _ _ c U'). apply isHealthy_iff. }
  assert (Commit : forall g', next g turnMoves = Ok g' ->
       (In c (cells g')
        <-> liveNeighbourCount (size g) (postMoves g turnMoves) (key c) = 2%nat
            \/ liveNeighbourCount (size g) (postMoves g turnMoves) (key c)
               = 3%nat)
       /\ ((exists d, In d (cells g') /\ key d = key c)
           <-> liveNeighbourCount (size g) (postMoves g turnMoves) (key c)
               = 2%nat
               \/ liveNeighbourCount (size g) (postMoves g turnMoves) (key c)
                  = 3%nat)).
  { intros g' E.
    destruct (next_Ok _ _ _ E) as (st & S1 & _ & ->).
    destruct (scan_spec _ _ _ S1) as (Born & _ & _ & _).
    assert (Survivor : forall d,
      In d (snd st ++ filter (isHealthy (size g) (postMoves g turnMoves))
                        (postMoves g turnMoves)) ->
      key d = key c ->
      d = c /\ isHealthy (size g) (postMoves g turnMoves) c = true).
    { intros d Hd K. apply in_app_iff in Hd. destruct Hd as [Hd|Hd].
      - exfalso. now apply (born_survivor_apart _ _ d c (Born d Hd) Hc).
      - apply filter_In in Hd. destruct Hd as [Hd Healthy].
        assert (d = c) by now apply (uniqueCoords_inj _ _ _ U').
        subst d. auto. }
    assert (Stays : isHealthy (size g) (postMoves g turnMoves) c = true ->
      In c (snd st ++ filter (isHealthy (size g) (postMoves g turnMoves))
                        (postMoves g turnMoves))).
    { intro H. apply in_app_iff. right. apply filter_In. auto. }
    split; (etransitivity; [|exact Band]); split.
    - intro H. now apply (Survivor c H).
    - exact Stays.
    - intros (d & Hd & K). now apply (Survivor d Hd).
    - intro H. exists c. auto. }
  split; [exact Band|]. split; [exact Commit|].
  intro Owned. destruct (next_total g turnMoves Owned) as (g' & E).
  exists g'. split; [exact E|]. now apply Commit.
Qed.

Lemma survival_rule_witness :
  next blinker [] = Ok blinkerUpright
  /\ (In (mkCell 1 (Int 3) (Int 3)) (cells blinkerUpright)
      <-> liveNeighbourCount 50 (postMoves blinker []) (Int 3, Int 3) = 2%nat
          \/ liveNeighbourCount 50 (postMoves blinker []) (Int 3, Int 3)
             = 3%nat)
  /\ liveNeighbourCount 50 (postMoves blinker []) (Int 3, Int 3) = 2%nat
  /\ exists g',
       next blinker [] = Ok g'
       /\ (In (mkCell 1 (Int 3) (Int 3)) (cells g')
           <-> liveNeighbourCount 50 (postMoves blinker []) (Int 3, Int 3)
               = 2%nat
               \/ liveNeighbourCount 50 (postMoves blinker []) (Int 3, Int 3)
                  = 3%nat).
Proof.
  assert (U : uniqueCoords (cells blinker)).
  { unfold uniqueCoords. simpl.
    repeat constructor; simpl; intuition discriminate. }
  assert (Hc : In (mkCell 1 (Int 3) (Int 3)) (postMoves blinker []))
    by (simpl; auto).
  split; [reflexivity|]. split; [|split; [reflexivity|]].
  - exact (proj1 (proj1 (proj2 (survival_rule blinker []
                                  (mkCell 1 (Int 3) (Int 3)) U Hc))
                    blinkerUpright eq_refl)).
  - refine (proj2 (proj2 (survival_rule blinker []
                            (mkCell 1 (Int 3) (Int 3)) U Hc)) _).
    intros d [<-|[<-|[<-|[]]]]; discriminate.
Defined.

(** ** Toroidal adjacency *)

(** A live cell on a neighbour coordinate is counted by both counting
    routines. *)
Lemma counted_neighbour (n : Z) (cs : list Cell) (cell c : Cell) :
  In c cs ->
  (exists a b, key c = (Int a, Int b)) ->
  In (key c) (neighbourCoords n (key cell)) ->
  In c (getAliveNeighboursOf n cs cell)
  /\ exists d, In d (snd (shouldBeBorn n cs cell)) /\ key d = key c.
Proof.
  intros Hc (a & b & K) Hq. split.
  - unfold getAliveNeighboursOf. apply filter_In.
    split; [|apply isAlive_In; eauto].
    rewrite getNeighboursOf_spec. apply in_flat_map. exists (key c).
    split; [assumption|].
    assert (I : In c (cellsAt cs (key c))).
    { unfold cellsAt. apply filter_In. split; [assumption|].
      apply equals_true_iff. exists a, b. now rewrite key_at_coord. }
    unfold neighbourSlot. destruct (cellsAt cs (key c)); [destruct I|].
    exact I.
  - rewrite shouldBeBorn_spec. cbn [snd].
    destruct (occupant cs (key c)) as [d|] eqn:O.
    + exists d. split; [|now apply occupant_Some in O].
      unfold liveNeighbours. apply in_flat_map. exists (key c).
      split; [assumption|]. rewrite O. now left.
    + apply occupant_None in O.
      rewrite liveAt_In in O by eauto. discriminate.
Qed.

(** C3. Toroidal adjacency: on a board of size [n > 0], the neighbour
    coordinates of an in-bounds cell [(a, b)] that both the birth count
    and the survival count go through are the eight pairs
    [(a + i, b + j)], [(i, j) <> (0, 0)], each component wrapped by
    [raw < 0 ? raw + n : raw % n], all in bounds; a live cell at
    [(0, b)] is counted as a neighbour of [(n - 1, b)] and a live cell at
    [(n - 1, b)] as a neighbour of [(0, b)]. *)
Theorem toroidal_adjacency (n a b : Z) (cs : list Cell) (cell : Cell) :
  0 < n -> 0 <= a < n -> 0 <= b < n ->
  key cell = (Int a, Int b) ->
  let w := wrapped n in
  let around :=
    [(Int (w (a - 1)), Int (w (b - 1))); (Int (w (a - 1)), Int (w b));
     (Int (w (a - 1)), Int (w (b + 1))); (Int (w a), Int (w (b - 1)));
     (Int (w a), Int (w (b + 1))); (Int (w (a + 1)), Int (w (b - 1)));
     (Int (w (a + 1)), Int (w b)); (Int (w (a + 1)), Int (w (b + 1)))] in
  neighbourCoords n (key cell) = around
  /\ getNeighboursOf n cs cell = flat_map (neighbourSlot cs) around
  /\ snd (shouldBeBorn n cs cell) = flat_map (occupantList cs) around
  /\ (forall q, In q around -> inBounds n (at_coord q))
  /\ (forall c, In c cs -> key c = (Int 0, Int b) -> a = n - 1 ->
        In c (getAliveNeighboursOf n cs cell)
        /\ exists d, In d (snd (shouldBeBorn n cs cell)) /\ key d = key c)
  /\ (forall c, In c cs -> key c = (Int (n - 1), Int b) -> a = 0 ->
        In c (getAliveNeighboursOf n cs cell)
        /\ exists d, In d (snd (shouldBeBorn n cs cell)) /\ key d = key c).
Proof.
  intros N A B K w around.
  assert (Around : neighbourCoords n (key cell) = around).
  { rewrite K, neighbourCoords_Int by lia. rewrite shifts_eq. simpl.
    unfold around, w. now rewrite !Z.add_0_r. }
  assert (Rem : forall z, 0 <= z < n -> w z = z).
  { intros z Hz. unfold w, wrapped. destruct (Z.ltb_spec z 0); [lia|].
    apply Z.rem_small. lia. }
  split; [exact Around|].
  split; [rewrite getNeighboursOf_spec; now rewrite Around|].
  split; [rewrite shouldBeBorn_spec; cbn [snd]; unfold liveNeighbours;
          now rewrite Around|].
  split; [|split].
  - intros q Hq. apply (neighbourCoords_inBounds n cell); [assumption| |].
    + exists a, b. auto.
    + now rewrite Around.
  - intros c Hc Kc Ea. apply counted_neighbour; [assumption|eauto|].
    rewrite Around, Kc. subst a. unfold around.
    do 6 right. left. f_equal; f_equal.
    + unfold w, wrapped. replace (n - 1 + 1) with n by lia.
      destruct (Z.ltb_spec n 0); [lia|]. now rewrite Z.rem_same by lia.
    + now apply Rem.
  - intros c Hc Kc Ea. apply counted_neighbour; [assumption|eauto|].
    rewrite Around, Kc. subst a. unfold around.
    right. left. f_equal; f_equal.
    + unfold w, wrapped. destruct (Z.ltb_spec (0 - 1) 0); lia.
    + now apply Rem.
Qed.

Lemma toroidal_adjacency_witness :
  neighbourCoords 5 (Int 4, Int 2) =
    [(Int 3, Int 1); (Int 3, Int 2); (Int 3, Int 3); (Int 4, Int 1);
     (Int 4, Int 3); (Int 0, Int 1); (Int 0, Int 2); (Int 0, Int 3)]
  /\ In (mkCell 1 (Int 0) (Int 2))
       (getAliveNeighboursOf 5 [mkCell 1 (Int 0) (Int 2)]
          (mkCell 2 (Int 4) (Int 2))).
Proof.
  pose proof (toroidal_adjacency 5 4 2 [mkCell 1 (Int 0) (Int 2)]
                (mkCell 2 (Int 4) (Int 2))
                ltac:(lia) ltac:(lia) ltac:(lia) eq_refl) as T.
  destruct T as (T1 & _ & _ & _ & T5 & _).
  split; [exact T1|].
  apply (T5 (mkCell 1 (Int 0) (Int 2))); [now left | reflexivity | reflexivity].
Defined.

(** ** Moves *)

(** C4. Move application: the moves are applied one after the other in
    the given order.  A move whose target holds no live cell appends a
    cell at exactly that target, owned by the move's player; a move whose
    target holds a live cell removes it, whoever owns it and whoever
    moves, and touches nothing else.  On a live set with one cell per
    coordinate pair, a coordinate pair targeted exactly twice in a batch
    is as live after the batch as before. *)
Theorem move_application (cs : list Cell) (move : Move)
  (turnMoves : list Move) (p : coord) :
  uniqueCoords cs ->
  applyMoves cs (move :: turnMoves) = applyMoves (applyMove cs move) turnMoves
  /\ (liveAt cs (target move) = false ->
      applyMove cs move
      = cs ++ [{| owner := playerid move;
                 x := Int (mx move); y := Int (my move) |}])
  /\ (liveAt cs (target move) = true ->
      liveAt (applyMove cs move) (target move) = false
      /\ forall c, In c (applyMove cs move)
                   <-> In c cs /\ key c <> target move)
  /\ (togglesAt p turnMoves = 2%nat ->
      liveAt (applyMoves cs turnMoves) p = liveAt cs p).
Proof.
  intro U. split; [reflexivity|]. split; [apply applyMove_dead|]. split.
  - intro L. split.
    + rewrite applyMove_liveAt by assumption.
      assert (T : coord_eqb (target move) (target move) = true)
        by now apply coord_eqb_eq.
      rewrite T, L. reflexivity.
    + intro c. destruct (applyMove_live _ _ L)
        as (l1 & a & l2 & E & Ka & Before & R).
      rewrite R. subst cs. apply uniqueCoords_app_inv in U.
      destruct U as [_ Apart]. rewrite <- Ka. split.
      * intro H. split; [|now apply Apart].
        apply in_app_iff in H. apply in_app_iff. simpl. tauto.
      * intros [H N]. apply in_app_iff in H. apply in_app_iff.
        destruct H as [?|[<-|?]]; tauto.
  - intro T. rewrite applyMoves_liveAt, T by assumption.
    apply xorb_false_r.
Qed.

Lemma move_application_witness :
  liveAt (applyMoves (cells blinker)
            [mkMove 3 3 2; mkMove 9 9 1; mkMove 3 3 7]) (Int 3, Int 3)
  = liveAt (cells blinker) (Int 3, Int 3).
Proof.
  apply (move_application (cells blinker) (mkMove 0 0 1)
           [mkMove 3 3 2; mkMove 9 9 1; mkMove 3 3 7] (Int 3, Int 3)).
  - unfold uniqueCoords. simpl.
    repeat constructor; simpl; intuition discriminate.
  - reflexivity.
Defined.

(** ** Ownership of newborns *)





(** ** Failure of the vote *)

(** C6. A birth among unowned cells makes [next] throw.  On a board of
    size 5 holding the unowned cells (1,2), (2,2), (3,2), a grid with
    unique in-bounds coordinates, the dead coordinate (2,1) has three live
    neighbours, none of them owned, so [most] reduces an empty array of
    keys and [next] throws a [TypeError]; the same happens when the three
    cells come from moves of player [-1] on an empty board. *)
Theorem next_throws_on_unowned_birth :
  uniqueCoords (cells unownedRow)
  /\ Forall (inBounds 5) (cells unownedRow)
  /\ liveNeighbourCount 5 (cells unownedRow) (Int 2, Int 1) = 3%nat
  /\ most (liveNeighbours 5 (cells unownedRow) (Int 2, Int 1)) = Throw TypeError
  /\ next unownedRow [] = Throw TypeError
  /\ next (newGrid 5) [mkMove 1 2 (-1); mkMove 2 2 (-1); mkMove 3 2 (-1)]
     = Throw TypeError.
Proof.
  split; [|split; [|repeat split]].
  - unfold uniqueCoords. simpl.
    repeat constructor; simpl; intuition discriminate.
  - repeat constructor;
      [exists 1, 2 | exists 2, 2 | exists 3, 2]; simpl; repeat split; lia.
Qed.

(** ** Invariants of the live set *)

(** C7. Coordinate uniqueness: if the grid holds at most one cell per
    coordinate pair, so does the grid after the moves, and so does the
    next generation.  The scan enters no coordinate pair twice into
    [checked], so that each dead coordinate is evaluated at most once;
    the next generation consists of the newborns followed by the
    survivors, the newborns have pairwise distinct coordinate pairs, and
    no newborn shares its pair with a survivor. *)
Theorem coordinate_uniqueness (g : Grid) (turnMoves : list Move) :
  uniqueCoords (cells g) ->
  uniqueCoords (postMoves g turnMoves)
  /\ forall g', next g turnMoves = Ok g' ->
       uniqueCoords (cells g')
       /\ exists checked newBorns,
            scan (size g) (postMoves g turnMoves) = Ok (checked, newBorns)
            /\ NoDup checked
            /\ cells g' =
                 newBorns ++ filter (isHealthy (size g) (postMoves g turnMoves))
                               (postMoves g turnMoves)
            /\ NoDup (map key newBorns)
            /\ forall c s, In c newBorns ->
                 In s (filter (isHealthy (size g) (postMoves g turnMoves))
                         (postMoves g turnMoves)) ->
                 key c <> key s.
Proof.
  intros U.
  assert (U' : uniqueCoords (postMoves g turnMoves))
    by now apply applyMoves_unique.
  split; [assumption|]. intros g' E.
  destruct (next_Ok _ _ _ E) as (st & S1 & _ & Cells).
  destruct (scan_spec _ _ _ S1) as (Born & _ & Distinct & Once).
  assert (Apart : forall c s, In c (snd st) ->
            In s (filter (isHealthy (size g) (postMoves g turnMoves))
                    (postMoves g turnMoves)) ->
            key c <> key s).
  { intros c s Hc Hs. apply filter_In in Hs. destruct Hs as [Hs _].
    now apply (born_survivor_apart _ _ c s (Born c Hc)). }
  split.
  - rewrite Cells. unfold uniqueCoords. rewrite map_app.
    apply NoDup_app; [assumption | now apply uniqueCoords_filter | ].
    intros k Hk Hk'. apply in_map_iff in Hk, Hk'.
    destruct Hk as (c & Kc & Hc), Hk' as (s & Ks & Hs).
    apply (Apart c s Hc Hs). congruence.
  - destruct st as [checked newBorns]. exists checked, newBorns. auto.
Qed.

Lemma coordinate_uniqueness_witness : uniqueCoords (cells blinkerUpright).
Proof.
  refine (proj1 (proj2 (coordinate_uniqueness blinker [] _) blinkerUpright _)).
  - unfold uniqueCoords. simpl.
    repeat constructor; simpl; intuition discriminate.
  - reflexivity.
Defined.

(** C8. In-bounds invariant: on a board of size [n > 0] whose live cells
    and whose moves all have coordinates in [[0, n)], every cell is in
    bounds after the moves, and every cell of the next generation has its
    coordinates in [[0, n)]. *)
Theorem in_bounds_invariant (g : Grid) (turnMoves : list Move) :
  0 < size g ->
  (forall c, In c (cells g) -> inBounds (size g) c) ->
  (forall m, In m turnMoves ->
     0 <= mx m < size g /\ 0 <= my m < size g) ->
  (forall c, In c (postMoves g turnMoves) -> inBounds (size g) c)
  /\ forall g', next g turnMoves = Ok g' ->
       forall c, In c (cells g') -> inBounds (size g') c.
Proof.
  intros N Hcs Hms.
  assert (Post : forall d, In d (postMoves g turnMoves) -> inBounds (size g) d)
    by now apply applyMoves_inBounds.
  split; [exact Post|]. intros g' E c Hc.
  destruct (next_Ok _ _ _ E) as (st & S1 & -> & Cells).
  destruct (scan_spec _ _ _ S1) as (Born & _ & _ & _).
  rewrite Cells in Hc. apply in_app_iff in Hc. destruct Hc as [Hc|Hc].
  - destruct (Born c Hc) as (_ & _ & _ & live & Hl & Hq).
    apply (inBounds_key _ (at_coord (key c))); [apply key_at_coord|].
    apply (neighbourCoords_inBounds _ live); auto.
  - apply filter_In in Hc. now apply Post.
Qed.

Lemma in_bounds_invariant_witness :
  inBounds 50 (mkCell 1 (Int 3) (Int 2)).
Proof.
  refine (proj2 (in_bounds_invariant blinker [] _ _ _) blinkerUpright _
            (mkCell 1 (Int 3) (Int 2)) _).
  - reflexivity.
  - intros c [<-|[<-|[<-|[]]]];
      [exists 2, 3 | exists 3, 3 | exists 4, 3]; simpl; repeat split; lia.
  - intros m [].
  - reflexivity.
  - now left.
Defined.

(** ** The reference trace *)

(** Without moves the row comes back after two steps, and neither (4,2)
    nor (2,4) is live; the same holds when the second batch is only the
    far-away move (25,25) of the reference sequence. *)
Lemma blinker_without_moves :
  ~ blinkerTrace [] [] /\ ~ blinkerTrace firstBatch [mkMove 25 25 1].
Proof.
  split; intros (g1 & g2 & E1 & E2 & _ & _ & L & _);
    vm_compute in E1; injection E1 as <-;
    vm_compute in E2; injection E2 as <-;
    vm_compute in L; discriminate.
Qed.

(** C9. The reference trace: with the batches of the reference sequence,
    (10,10), (15,15), (25,25) and then (5,2), (1,4), (25,25), the grid has
    three live cells after the first step and three after the second,
    among them (4,2) and (2,4). *)
Theorem blinker_reference_trace : blinkerTrace firstBatch secondBatch.
Proof.
  exists blinkerUpright.
  exists {| size := 50;
            cells := [mkCell 1 (Int 4) (Int 2); mkCell 1 (Int 2) (Int 4);
                      mkCell 1 (Int 3) (Int 3)] |}.
  repeat split; reflexivity.
Qed.

(** ** Frame *)

(** C10. Frame property of survival: a cell of the grid after the moves
    whose coordinate pair is the target of no move is a cell of the grid
    before the call; and a cell of the next generation whose coordinate
    pair was live before the call and is the target of no move is a cell
    of the grid before the call, owner and coordinates included: on a grid
    with one cell per coordinate pair it is the cell that sat on that
    pair. *)
Theorem survivor_frame (g : Grid) (turnMoves : list Move) (c : Cell) :
  togglesAt (key c) turnMoves = O ->
  (In c (postMoves g turnMoves) -> In c (cells g))
  /\ forall g', next g turnMoves = Ok g' ->
       In c (cells g') ->
       liveAt (cells g) (key c) = true ->
       In c (cells g)
       /\ (uniqueCoords (cells g) ->
           forall d, In d (cells g) -> key d = key c ->
             owner c = owner d /\ x c = x d /\ y c = y d).
Proof.
  intros Untouched.
  assert (Post : In c (postMoves g turnMoves) -> In c (cells g)).
  { intro Hc. apply applyMoves_In in Hc.
    destruct Hc as [Hc | (m & Hm & ->)]; [assumption|].
    exfalso. now apply (togglesAt_In m turnMoves Hm). }
  split; [exact Post|]. intros g' E Hc Live.
  assert (Before : In c (cells g)).
  { destruct (next_Ok _ _ _ E) as (st & S1 & _ & Cells).
    destruct (scan_spec _ _ _ S1) as (Born & _ & _ & _).
    rewrite Cells in Hc. apply in_app_iff in Hc. destruct Hc as [Hc|Hc].
    - exfalso. destruct (Born c Hc) as (Dead & _).
      apply liveAt_true_iff in Live.
      destruct Live as (d & a & b & Hd & Kd & Kc).
      assert (Hd' : In d (postMoves g turnMoves)).
      { apply applyMoves_keep; [assumption|]. now rewrite Kd. }
      rewrite <- Kd, (liveAt_In _ d Hd') in Dead; [discriminate|].
      exists a, b. congruence.
    - apply filter_In in Hc. now apply Post. }
  split; [assumption|].
  intros U d Hd K.
  assert (d = c) by now apply (uniqueCoords_inj (cells g)).
  subst d. auto.
Qed.

Lemma survivor_frame_witness :
  In (mkCell 1 (Int 3) (Int 3)) (cells blinker).
Proof.
  refine (proj1 (proj2 (survivor_frame blinker [] (mkCell 1 (Int 3) (Int 3)) _)
                   blinkerUpright _ _ _)).
  - reflexivity.
  - reflexivity.
  - simpl. auto.
  - reflexivity.
Defined.

(** * Further properties of the engine *)

(** ** Cells and snapshots *)

(** X1. [equals] compares coordinates only: two cells are equal exactly
    when both have integer coordinates and [debugCell] shows the same
    pair; it is symmetric and transitive, blind to the owners, and a cell
    with a [NaN] coordinate is not even equal to itself. *)
Theorem equals_coordinates (c d : Cell) :
  (equals c d = true
   <-> (exists a b, debugCell c = (Int a, Int b)) /\ debugCell c = debugCell d)
  /\ equals c d = equals d c
  /\ (forall o o',
        equals (mkCell o (x c) (y c)) (mkCell o' (x d) (y d)) = equals c d)
  /\ (forall e, equals c d = true -> equals d e = true -> equals c e = true)
  /\ (x c = NaN \/ y c = NaN -> equals c c = false).
Proof.
  split; [|split; [|split; [|split]]].
  - rewrite equals_true_iff. unfold debugCell, key. split.
    + intros (a & b & Kc & Kd). split; [eauto | congruence].
    + intros ((a & b & Kc) & E). exists a, b. split; congruence.
  - unfold equals. destruct (x c), (x d), (y c), (y d); simpl;
      rewrite ?(Z.eqb_sym z), ?(Z.eqb_sym z0), ?(Z.eqb_sym z1); reflexivity.
  - reflexivity.
  - intros e H1 H2. apply equals_true_iff in H1, H2. apply equals_true_iff.
    destruct H1 as (a & b & Kc & Kd), H2 as (a' & b' & Kd' & Ke).
    exists a, b. split; congruence.
  - unfold equals. intros [-> | ->]; simpl; [reflexivity|].
    now destruct (seq (x c) (x c)).
Qed.

Lemma mount_fold (snapshot : list Move) (cs : list Cell) :
  fold_left
    (fun cs cell =>
       cs ++ [{| owner := playerid cell; x := Int (mx cell); y := Int (my cell) |}])
    snapshot cs
  = cs ++ map flipOf snapshot.
Proof.
  revert cs. induction snapshot as [|e l IH]; intro cs; simpl.
  - now rewrite app_nil_r.
  - rewrite IH, <- app_assoc. reflexivity.
Qed.

Lemma mountSnapshot_cells (g : Grid) (snapshot : list Move) :
  cells (mountSnapshot g snapshot) = cells g ++ map flipOf snapshot.
Proof. unfold mountSnapshot. simpl. apply mount_fold. Qed.

Lemma key_flipOf (m : Move) : key (flipOf m) = target m.
Proof. reflexivity. Qed.

Lemma liveAt_app (l1 l2 : list Cell) (p : coord) :
  liveAt (l1 ++ l2) p = liveAt l1 p || liveAt l2 p.
Proof.
  destruct (liveAt l1 p) eqn:L1; simpl.
  - apply liveAt_true_iff in L1. destruct L1 as (c & a & b & Hc & K & P).
    apply liveAt_true_iff. exists c, a, b. rewrite in_app_iff. auto.
  - destruct (liveAt l2 p) eqn:L2.
    + apply liveAt_true_iff in L2. destruct L2 as (c & a & b & Hc & K & P).
      apply liveAt_true_iff. exists c, a, b. rewrite in_app_iff. auto.
    + destruct (liveAt (l1 ++ l2) p) eqn:L; [|reflexivity].
      apply liveAt_true_iff in L. destruct L as (c & a & b & Hc & K & P).
      apply in_app_iff in Hc. destruct Hc as [Hc|Hc].
      * assert (T : liveAt l1 p = true)
          by (apply liveAt_true_iff; exists c, a, b; auto).
        congruence.
      * assert (T : liveAt l2 p = true)
          by (apply liveAt_true_iff; exists c, a, b; auto).
        congruence.
Qed.

Lemma liveAt_flip (m : Move) (p : coord) :
  liveAt [flipOf m] p = coord_eqb (target m) p.
Proof.
  destruct (coord_eqb (target m) p) eqn:E.
  - apply coord_eqb_eq in E. subst p. apply liveAt_true_iff.
    exists (flipOf m), (mx m), (my m). simpl. auto.
  - destruct (liveAt [flipOf m] p) eqn:L; [|reflexivity].
    apply liveAt_true_iff in L. destruct L as (c & a & b & [<-|[]] & K & _).
    rewrite key_flipOf in K. apply coord_eqb_eq in K. congruence.
Qed.

(** X2. [mountSnapshot] appends one cell per entry, in order, at the
    entry's exact coordinates and with its player as owner, and leaves the
    size alone; mounting two snapshots in turn is mounting their
    concatenation, and every mounted entry is live afterwards. *)
Theorem mountSnapshot_appends (g : Grid) (s1 s2 : list Move) :
  cells (mountSnapshot g s1) = cells g ++ map flipOf s1
  /\ size (mountSnapshot g s1) = size g
  /\ mountSnapshot (mountSnapshot g s1) s2 = mountSnapshot g (s1 ++ s2)
  /\ (forall e, In e s1 -> liveAt (cells (mountSnapshot g s1)) (target e) = true)
  /\ (forall p, liveAt (cells g) p = true ->
        liveAt (cells (mountSnapshot g s1)) p = true).
Proof.
  split; [apply mountSnapshot_cells|]. split; [reflexivity|].
  split; [|split].
  - unfold mountSnapshot. simpl. f_equal. now rewrite fold_left_app.
  - intros e He. rewrite mountSnapshot_cells. apply liveAt_true_iff.
    exists (flipOf e), (mx e), (my e). rewrite in_app_iff.
    repeat split; auto. right. now apply in_map.
  - intros p L. rewrite mountSnapshot_cells, liveAt_app, L. reflexivity.
Qed.

(** X3. [mountSnapshot] does not deduplicate: on an empty grid the
    mounted cells have pairwise distinct coordinates exactly when the
    snapshot entries have, and a repeated entry gives two cells on one
    coordinate pair. *)
Theorem mountSnapshot_no_dedup (n : Z) (snapshot : list Move) :
  (uniqueCoords (cells (mountSnapshot (newGrid n) snapshot))
   <-> NoDup (map target snapshot))
  /\ forall e, In e snapshot ->
       (2 <= length (cellsAt (cells (mountSnapshot (newGrid n) (e :: snapshot)))
                       (target e)))%nat.
Proof.
  split.
  - rewrite mountSnapshot_cells. simpl. unfold uniqueCoords.
    rewrite map_map. reflexivity.
  - intros e He. rewrite mountSnapshot_cells. simpl.
    unfold cellsAt. simpl.
    assert (E : equals (flipOf e) (at_coord (target e)) = true).
    { apply equals_true_iff. exists (mx e), (my e). auto. }
    rewrite E. simpl.
    assert (I : In (flipOf e)
                  (filter (fun oldCell => equals oldCell (at_coord (target e)))
                     (map flipOf snapshot))).
    { apply filter_In. split; [now apply in_map | exact E]. }
    destruct (filter _ (map flipOf snapshot)); [destruct I|]. simpl. lia.
Qed.

Lemma applyMoves_fresh (snapshot : list Move) (cs : list Cell) :
  NoDup (map target snapshot) ->
  (forall e, In e snapshot -> liveAt cs (target e) = false) ->
  applyMoves cs snapshot = cs ++ map flipOf snapshot.
Proof.
  revert cs. induction snapshot as [|e l IH]; intros cs N Dead; simpl.
  - now rewrite app_nil_r.
  - inversion N as [|k ks Nk Nl]; subst.
    rewrite applyMove_dead by (apply Dead; now left).
    rewrite IH, <- app_assoc; [reflexivity | assumption |].
    intros e' He'. rewrite liveAt_app, liveAt_flip.
    rewrite Dead by now right. simpl.
    destruct (coord_eqb (target e) (target e')) eqn:E; [|reflexivity].
    apply coord_eqb_eq in E. exfalso. apply Nk. rewrite E. now apply in_map.
Qed.

(** X4. Toggling as mounting: a batch of moves with pairwise distinct
    targets, none of them live, leaves the grid that [mountSnapshot]
    would build from the same entries. *)
Theorem moves_as_snapshot (g : Grid) (entries : list Move) :
  NoDup (map target entries) ->
  (forall e, In e entries -> liveAt (cells g) (target e) = false) ->
  postMoves g entries = cells (mountSnapshot g entries).
Proof.
  intros N Dead. rewrite mountSnapshot_cells. now apply applyMoves_fresh.
Qed.

Lemma moves_as_snapshot_witness :
  postMoves (newGrid 50) [mkMove 2 3 1; mkMove 3 3 1; mkMove 4 3 1]
  = cells blinker.
Proof.
  apply (moves_as_snapshot (newGrid 50)
           [mkMove 2 3 1; mkMove 3 3 1; mkMove 4 3 1]).
  - simpl. repeat constructor; simpl; intuition discriminate.
  - intros e _. reflexivity.
Defined.

(** ** More on moves *)

Lemma findIndex_last {A : Type} (p : A -> bool) (l : list A) (a : A) :
  (forall b, In b l -> p b = false) -> p a = true ->
  findIndex p (l ++ [a]) = Some (length l)
  /\ splice1 (length l) (l ++ [a]) = l.
Proof.
  intros F Pa. induction l as [|h t IH]; simpl.
  - rewrite Pa. auto.
  - rewrite (F h) by now left.
    destruct IH as [-> ->]; [intros; apply F; now right|]. auto.
Qed.

(** X5. Toggling one coordinate pair twice in a row: on a dead target
    the grid is restored exactly; on a live target of a grid with one cell
    per coordinate pair, the old cell is replaced by a new one at the end
    of the list, owned by the player of the second move. *)
Theorem double_toggle (cs : list Cell) (m m' : Move) :
  target m' = target m ->
  (liveAt cs (target m) = false -> applyMoves cs [m; m'] = cs)
  /\ (uniqueCoords cs -> liveAt cs (target m) = true ->
      exists l1 a l2,
        cs = l1 ++ a :: l2 /\ key a = target m
        /\ applyMoves cs [m; m'] = l1 ++ l2 ++ [flipOf m']).
Proof.
  intro T. split.
  - intro Dead. simpl. rewrite (applyMove_dead _ _ Dead).
    unfold applyMove.
    destruct (findIndex_last (fun cell => equals cell (flipOf m')) cs (flipOf m))
      as [-> ->]; [| |reflexivity].
    + intros b Hb. unfold liveAt in Dead. rewrite isAlive_false_iff in Dead.
      rewrite <- (Dead b Hb). apply equals_key.
      now rewrite key_at_coord, key_flipOf.
    + apply equals_flip. now rewrite key_flipOf.
  - intros U Live. simpl.
    destruct (applyMove_live _ _ Live) as (l1 & a & l2 & E & Ka & _ & R).
    exists l1, a, l2. split; [assumption|]. split; [assumption|].
    rewrite R, applyMove_dead, <- app_assoc; [reflexivity|].
    rewrite T, <- R, applyMove_liveAt by assumption.
    assert (Q : coord_eqb (target m) (target m) = true)
      by now apply coord_eqb_eq.
    now rewrite Q, Live.
Qed.

Lemma double_toggle_witness :
  applyMoves (cells blinker) [mkMove 7 7 1; mkMove 7 7 2] = cells blinker.
Proof.
  apply (double_toggle (cells blinker) (mkMove 7 7 1) (mkMove 7 7 2));
    reflexivity.
Defined.

Lemma togglesAt_Permutation (p : coord) (ms ms' : list Move) :
  Permutation ms ms' -> togglesAt p ms = togglesAt p ms'.
Proof.
  intro P. unfold togglesAt. induction P; simpl.
  - reflexivity.
  - destruct (coord_eqb (target x0) p); simpl; congruence.
  - destruct (coord_eqb (target x0) p), (coord_eqb (target y0) p); reflexivity.
  - congruence.
Qed.

(** X6. Parity of toggles: on a grid with one cell per coordinate pair,
    a coordinate pair is live after a batch exactly when its liveness
    before differs from the parity of the number of moves aimed at it; so
    which coordinates are live after a batch does not depend on the order
    of its moves. *)
Theorem toggle_parity (cs : list Cell) (ms ms' : list Move) (p : coord) :
  uniqueCoords cs ->
  liveAt (applyMoves cs ms) p = xorb (liveAt cs p) (Nat.odd (togglesAt p ms))
  /\ (Permutation ms ms' ->
      liveAt (applyMoves cs ms) p = liveAt (applyMoves cs ms') p).
Proof.
  intro U. split; [now apply applyMoves_liveAt|].
  intro P. rewrite !applyMoves_liveAt by assumption.
  now rewrite (togglesAt_Permutation p ms ms' P).
Qed.

Lemma toggle_parity_witness :
  liveAt (applyMoves (cells blinker) [mkMove 3 3 2; mkMove 9 9 1; mkMove 3 3 7; mkMove 3 3 4])
    (Int 3, Int 3)
  = xorb (liveAt (cells blinker) (Int 3, Int 3)) true.
Proof.
  refine (proj1 (toggle_parity (cells blinker)
                   [mkMove 3 3 2; mkMove 9 9 1; mkMove 3 3 7; mkMove 3 3 4]
                   [] (Int 3, Int 3) _)).
  unfold uniqueCoords. simpl.
  repeat constructor; simpl; intuition discriminate.
Defined.

(** X7. Moves are taken verbatim: a move on a dead target puts a cell at
    exactly its coordinates, whatever they are, so that a grid that was in
    bounds stays in bounds exactly when the move is. *)
Theorem move_verbatim (n : Z) (cs : list Cell) (m : Move) :
  (forall c, In c cs -> inBounds n c) ->
  liveAt cs (target m) = false ->
  In (flipOf m) (applyMove cs m)
  /\ ((forall c, In c (applyMove cs m) -> inBounds n c)
      <-> 0 <= mx m < n /\ 0 <= my m < n).
Proof.
  intros B Dead. rewrite (applyMove_dead _ _ Dead). split.
  - apply in_app_iff. right. now left.
  - split.
    + intro H. destruct (H (flipOf m)) as (a & b & K & A & Bb).
      * apply in_app_iff. right. now left.
      * rewrite key_flipOf in K. unfold target in K.
        injection K as -> ->. auto.
    + intros R c Hc. apply in_app_iff in Hc. destruct Hc as [Hc|[<-|[]]].
      * now apply B.
      * exists (mx m), (my m). auto.
Qed.

Lemma move_verbatim_witness :
  In (flipOf (mkMove (-3) 99 1)) (applyMove (cells blinker) (mkMove (-3) 99 1)).
Proof.
  refine (proj1 (move_verbatim 50 (cells blinker) (mkMove (-3) 99 1) _ _)).
  - intros c [<-|[<-|[<-|[]]]];
      [exists 2, 3 | exists 3, 3 | exists 4, 3]; simpl; repeat split; lia.
  - reflexivity.
Defined.

(** ** More on wrap-around *)

Lemma wrapped_mod (n z : Z) : 0 < n -> - n <= z -> wrapped n z = z mod n.
Proof.
  intros N Hz. unfold wrapped. destruct (Z.ltb_spec z 0).
  - apply (Z.mod_unique z n (-1) (z + n)); lia.
  - apply Z.rem_mod_nonneg; lia.
Qed.

(** X8. What the wrap expression computes on a board of size [n > 0]: for
    a raw value of at least [- n] it is the residue modulo [n], hence in
    bounds; below [- n] it only adds [n] once and stays negative; and on a
    board of size 0 a non-negative raw value gives [NaN]. *)
Theorem wrap_behaviour (n z : Z) :
  0 < n ->
  (- n <= z -> wrap n (Int z) = Int (z mod n) /\ 0 <= z mod n < n)
  /\ (z < - n -> wrap n (Int z) = Int (z + n) /\ z + n < 0)
  /\ (0 <= z -> wrap 0 (Int z) = NaN).
Proof.
  intro N. split; [|split].
  - intro Hz. rewrite wrap_Int by lia. rewrite wrapped_mod by assumption.
    split; [reflexivity|]. apply Z.mod_pos_bound. assumption.
  - intro Hz. rewrite wrap_Int by lia. unfold wrapped.
    destruct (Z.ltb_spec z 0); [|lia]. split; [reflexivity | lia].
  - intro Hz. unfold wrap. simpl. destruct (Z.ltb_spec z 0); [lia|reflexivity].
Qed.

Lemma wrap_behaviour_witness :
  wrap 5 (Int (-1)) = Int 4 /\ wrap 5 (Int (-7)) = Int (-2).
Proof.
  split.
  - exact (proj1 (proj1 (wrap_behaviour 5 (-1) eq_refl) ltac:(lia))).
  - exact (proj1 (proj1 (proj2 (wrap_behaviour 5 (-7) eq_refl)) ltac:(lia))).
Defined.

Lemma shifts_opp (ij : Z * Z) :
  In ij shifts -> In (- fst ij, - snd ij) shifts.
Proof.
  rewrite shifts_eq. simpl. intuition (subst; simpl; auto 10).
Qed.

Lemma wrapped_back (n a i : Z) :
  0 < n -> 0 <= a < n -> -1 <= i <= 1 ->
  wrapped n (wrapped n (a + i) + - i) = a.
Proof.
  intros N A I.
  pose proof (wrapped_bound n a i N A I) as B.
  rewrite wrapped_mod by lia. rewrite (wrapped_mod n (a + i)) by lia.
  replace ((a + i) mod n + - i) with ((a + i) mod n - i) by lia.
  rewrite Zminus_mod_idemp_l. replace (a + i - i) with a by lia.
  apply Z.mod_small. assumption.
Qed.

Lemma neighbour_back (n a b a' b' : Z) :
  0 < n -> 0 <= a < n -> 0 <= b < n ->
  In (Int a', Int b') (neighbourCoords n (Int a, Int b)) ->
  In (Int a, Int b) (neighbourCoords n (Int a', Int b')).
Proof.
  intros N A B. rewrite !neighbourCoords_Int by lia.
  rewrite !in_map_iff. intros (ij & E & Hij). injection E as <- <-.
  exists (- fst ij, - snd ij). split; [|now apply shifts_opp].
  apply shifts_range in Hij. destruct Hij as [I J]. cbn [fst snd].
  now rewrite !wrapped_back.
Qed.

(** X9. Adjacency is symmetric on the board: for in-bounds coordinate
    pairs of a board of size [n > 0], one is among the eight wrapped
    neighbour coordinates of the other exactly when the converse holds. *)
Theorem adjacency_symmetric (n a b a' b' : Z) :
  0 < n -> 0 <= a < n -> 0 <= b < n -> 0 <= a' < n -> 0 <= b' < n ->
  In (Int a', Int b') (neighbourCoords n (Int a, Int b))
  <-> In (Int a, Int b) (neighbourCoords n (Int a', Int b')).
Proof.
  intros N A B A' B'. split; now apply neighbour_back.
Qed.

Lemma adjacency_symmetric_witness :
  In (Int 0, Int 4) (neighbourCoords 5 (Int 4, Int 0))
  <-> In (Int 4, Int 0) (neighbourCoords 5 (Int 0, Int 4)).
Proof.
  apply (adjacency_symmetric 5 4 0 0 4); lia.
Defined.

(** X10. From size 3 on, the neighbourhood is a proper Moore
    neighbourhood: the eight wrapped neighbour coordinates of an in-bounds
    pair are pairwise distinct and none of them is the pair itself.  (On
    smaller boards they coincide.) *)
Theorem neighbours_distinct (n a b : Z) :
  3 <= n -> 0 <= a < n -> 0 <= b < n ->
  NoDup (neighbourCoords n (Int a, Int b))
  /\ ~ In (Int a, Int b) (neighbourCoords n (Int a, Int b)).
Proof.
  intros N A B. rewrite neighbourCoords_Int by lia. rewrite shifts_eq.
  cbn [map fst snd]. rewrite !Z.add_0_r.
  assert (W : forall c, 0 <= c < n ->
            wrapped n c = c
            /\ wrapped n (c + -1) <> c /\ wrapped n (c + 1) <> c
            /\ wrapped n (c + -1) <> wrapped n (c + 1)).
  { intros c C. unfold wrapped.
    destruct (Z.ltb_spec c 0); [lia|].
    destruct (Z.ltb_spec (c + -1) 0), (Z.ltb_spec (c + 1) 0); try lia.
    - rewrite !Z.rem_small by lia. lia.
    - destruct (Z.eq_dec (c + 1) n) as [E|E].
      + rewrite E, Z.rem_same, !Z.rem_small by lia. lia.
      + rewrite !Z.rem_small by lia. lia. }
  destruct (W a A) as (Ea & Am & Ap & Amp).
  destruct (W b B) as (Eb & Bm & Bp & Bmp).
  rewrite Ea, Eb.
  set (am := wrapped n (a + -1)) in *. set (ap := wrapped n (a + 1)) in *.
  set (bm := wrapped n (b + -1)) in *. set (bp := wrapped n (b + 1)) in *.
  clearbody am ap bm bp. clear W Ea Eb.
  split.
  - repeat (apply NoDup_cons;
            [ simpl; intro H;
              repeat (destruct H as [H|H];
                      [injection H; intros; congruence|]);
              exact H
            | ]).
    apply NoDup_nil.
  - simpl. intro H.
    repeat (destruct H as [H|H]; [injection H; intros; congruence|]).
    exact H.
Qed.

Lemma neighbours_distinct_witness :
  NoDup (neighbourCoords 3 (Int 0, Int 2)).
Proof.
  refine (proj1 (neighbours_distinct 3 0 2 _ _ _)); lia.
Defined.

(** ** More on the ownership vote *)

(** The reduction of [most] ends on the last key, in the order of the
    reduction, whose tally is the highest. *)
Lemma fold_left_last_max (g : Z -> Z -> bool) (cnt : Z -> Z) (rest : list Z)
  (a : Z) :
  (forall u v, In u (a :: rest) -> In v (a :: rest) -> g u v = (cnt u >? cnt v)) ->
  exists l1 l2,
    a :: rest = l1 ++ fold_left (fun u v => if g u v then u else v) rest a :: l2
    /\ (forall q, In q l1 ->
          cnt q <= cnt (fold_left (fun u v => if g u v then u else v) rest a))
    /\ (forall q, In q l2 ->
          cnt q < cnt (fold_left (fun u v => if g u v then u else v) rest a)).
Proof.
  induction rest as [|b rest IH] using rev_ind; intro G.
  - exists [], []. simpl. repeat split; intros ? [].
  - rewrite fold_left_app. cbn [fold_left].
    destruct IH as (l1 & l2 & E & Before & After).
    { intros u v Hu Hv. apply G.
      - destruct Hu as [->|Hu]; [now left | right; apply in_app_iff; now left].
      - destruct Hv as [->|Hv]; [now left | right; apply in_app_iff; now left]. }
    set (r := fold_left (fun u v => if g u v then u else v) rest a) in *.
    assert (Hr : In r (a :: rest)).
    { rewrite E. apply in_app_iff. right. now left. }
    rewrite G.
    2:{ destruct Hr as [Hr|Hr]; [now left | right; apply in_app_iff; now left]. }
    2:{ right. apply in_app_iff. right. now left. }
    destruct (Z.gtb_spec (cnt r) (cnt b)) as [Gt|Le].
    + exists l1, (l2 ++ [b]). split; [|split].
      * change (a :: rest ++ [b]) with ((a :: rest) ++ [b]).
        rewrite E, <- app_assoc. reflexivity.
      * assumption.
      * intros q Hq. apply in_app_iff in Hq. destruct Hq as [Hq|[<-|[]]];
          [now apply After | lia].
    + exists (a :: rest), []. split; [|split].
      * reflexivity.
      * intros q Hq. rewrite E in Hq. apply in_app_iff in Hq.
        destruct Hq as [Hq|[<-|Hq]].
        -- specialize (Before q Hq). lia.
        -- lia.
        -- specialize (After q Hq). lia.
      * intros ? [].
Qed.

Lemma most_decompose (l : list Cell) (o : Z) :
  most l = Ok o ->
  exists r l1 l2,
    o = parseInt r
    /\ rev (keys (fold_left tally l [])) = l1 ++ r :: l2
    /\ (forall q, In q l1 -> (votes q l <= votes r l)%nat)
    /\ (forall q, In q l2 -> (votes q l < votes r l)%nat).
Proof.
  rewrite most_unfold. set (pc := fold_left tally l []).
  destruct (rev (keys pc)) as [|a rest] eqn:R; [discriminate|].
  intro E. injection E as E.
  assert (Val : forall q, In q (a :: rest) ->
                  get pc q = Some (Z.of_nat (votes q l))).
  { intros q Hq. rewrite <- R, <- in_rev in Hq.
    apply playersCount_key in Hq. destruct Hq as [N1 N0].
    unfold pc. rewrite playersCount_get.
    destruct (Z.eqb_spec q (-1)); [contradiction|].
    destruct (Nat.eqb_spec (votes q l) 0); [contradiction | reflexivity]. }
  destruct (fold_left_last_max
              (fun u v => gt (get pc u) (get pc v))
              (fun q => Z.of_nat (votes q l)) rest a)
    as (l1 & l2 & D & Before & After).
  { intros u v Hu Hv. now rewrite (Val u Hu), (Val v Hv). }
  set (r := fold_left (fun u v => if gt (get pc u) (get pc v) then u else v)
              rest a) in *.
  exists r, l1, l2. split; [now symmetry|]. split; [assumption|].
  split; intros q Hq; [specialize (Before q Hq) | specialize (After q Hq)]; lia.
Qed.

(** The key that [most] hands to [parseInt] is the owner of a voter and
    is not the sentinel. *)
Lemma most_Ok_key (l : list Cell) (o : Z) :
  most l = Ok o ->
  exists r, o = parseInt r /\ r <> unowned /\ exists c, In c l /\ owner c = r.
Proof.
  intro M. destruct (most_decompose l o M) as (r & l1 & l2 & P & R & _ & _).
  assert (Kr : In r (keys (fold_left tally l []))).
  { apply in_rev. rewrite R. apply in_app_iff. right. now left. }
  apply playersCount_key in Kr. destruct Kr as [Nr Vr].
  exists r. split; [exact P|]. split; [exact Nr | now apply votes_pos_iff].
Qed.

(** X11. With owners below 10^21 in absolute value, the result of [most]
    is a winner of the vote: it is the owner of one of the cells, it is
    not the unowned sentinel, and no other player has more votes. *)
Theorem most_winner (l : list Cell) (o : Z) :
  (forall c, In c l -> Z.abs (owner c) < 10 ^ 21) ->
  most l = Ok o ->
  o <> unowned
  /\ (exists c, In c l /\ owner c = o)
  /\ forall q, q <> unowned -> (votes q l <= votes o l)%nat.
Proof.
  intros Small M.
  destruct (most_decompose l o M) as (r & l1 & l2 & P & R & Before & After).
  assert (Kr : In r (keys (fold_left tally l []))).
  { apply in_rev. rewrite R. apply in_app_iff. right. now left. }
  apply playersCount_key in Kr. destruct Kr as [Nr Vr].
  pose proof Vr as Voter. apply votes_pos_iff in Voter.
  assert (Or : o = r).
  { rewrite P. apply parseInt_small.
    destruct Voter as (c & Hc & <-). now apply Small. }
  rewrite Or.
  split; [exact Nr|]. split; [exact Voter|].
  intros q Nq. destruct (Nat.eq_dec (votes q l) 0) as [Z0|Nz]; [lia|].
  assert (Kq : In q (keys (fold_left tally l [])))
    by (apply playersCount_key; split; assumption).
  apply in_rev in Kq. rewrite R in Kq. apply in_app_iff in Kq.
  destruct Kq as [Kq|[<-|Kq]].
  - now apply Before.
  - lia.
  - specialize (After q Kq). lia.
Qed.

Lemma most_winner_witness :
  1 <> unowned
  /\ (exists c, In c [mkCell 2 NaN NaN; mkCell 1 NaN NaN; mkCell 1 NaN NaN]
                /\ owner c = 1)
  /\ forall q, q <> unowned ->
       (votes q [mkCell 2 NaN NaN; mkCell 1 NaN NaN; mkCell 1 NaN NaN]
        <= votes 1 [mkCell 2 NaN NaN; mkCell 1 NaN NaN; mkCell 1 NaN NaN])%nat.
Proof.
  apply (most_winner [mkCell 2 NaN NaN; mkCell 1 NaN NaN; mkCell 1 NaN NaN] 1).
  - intros c [<-|[<-|[<-|[]]]]; reflexivity.
  - reflexivity.
Defined.

Lemma insertSorted_sorted (k : Z) (l : list Z) :
  StronglySorted Z.le l -> StronglySorted Z.le (insertSorted k l).
Proof.
  induction l as [|h t IH]; intro S; simpl.
  - repeat constructor.
  - inversion S as [|h' t' St Ft]; subst.
    destruct (Z.leb_spec k h).
    + constructor; [assumption|]. constructor; [assumption|].
      apply Forall_forall. intros y Hy.
      rewrite Forall_forall in Ft. specialize (Ft y Hy). lia.
    + constructor; [now apply IH|].
      apply Forall_forall. intros y Hy. apply insertSorted_In in Hy.
      destruct Hy as [->|Hy]; [lia|].
      rewrite Forall_forall in Ft. now apply Ft.
Qed.

Lemma sortAsc_sorted (l : list Z) : StronglySorted Z.le (sortAsc l).
Proof.
  induction l as [|h t IH]; simpl; [constructor|].
  now apply insertSorted_sorted.
Qed.

Lemma sorted_after (l1 l2 : list Z) (r : Z) :
  StronglySorted Z.le (l1 ++ r :: l2) -> forall q, In q l2 -> r <= q.
Proof.
  induction l1 as [|h t IH]; simpl; intros S q Hq.
  - inversion S as [|h' t' St Ft]; subst.
    rewrite Forall_forall in Ft. now apply Ft.
  - inversion S; subst. now apply IH.
Qed.

Lemma filter_none {A : Type} (p : A -> bool) (l : list A) :
  (forall a, In a l -> p a = false) -> filter p l = [].
Proof.
  induction l as [|h t IH]; intro H; simpl; [reflexivity|].
  rewrite (H h) by now left. apply IH. intros; apply H; now right.
Qed.

(** X12. Ties go to the lowest player id: when the owners are ordinary
    non-negative integers (array-index property names), the result of
    [most] is the smallest of the players with the highest number of
    votes. *)
Theorem most_tie_break (l : list Cell) (o : Z) :
  most l = Ok o ->
  (forall c, In c l -> owner c <> unowned -> isArrayIndex (owner c) = true) ->
  forall q, q <> unowned -> votes q l = votes o l -> o <= q.
Proof.
  intros M Idx q Nq Tie.
  destruct (most_decompose l o M) as (r & l1 & l2 & P & R & _ & After).
  assert (Kr : In r (keys (fold_left tally l []))).
  { apply in_rev. rewrite R. apply in_app_iff. right. now left. }
  apply playersCount_key in Kr. destruct Kr as [No Vo].
  assert (Or : o = r).
  { rewrite P. apply parseInt_small.
    apply votes_pos_iff in Vo. destruct Vo as (c & Hc & E).
    assert (I : isArrayIndex r = true)
      by (rewrite <- E; apply Idx; [assumption | now rewrite E]).
    unfold isArrayIndex in I. apply andb_true_iff in I.
    destruct I as [I1 I2]. apply Z.leb_le in I1. apply Z.ltb_lt in I2.
    assert (2 ^ 32 - 1 < 10 ^ 21) by reflexivity. lia. }
  rewrite Or in *.
  set (pc := fold_left tally l []) in *.
  assert (Names : forall k, In k (map fst pc) -> isArrayIndex k = true).
  { intros k Hk.
    assert (Kk : In k (keys pc)).
    { apply keys_In. intro G. apply get_None_iff in G. contradiction. }
    apply playersCount_key in Kk. destruct Kk as [Nk Vk].
    apply votes_pos_iff in Vk. destruct Vk as (c & Hc & <-).
    now apply Idx. }
  assert (Sorted : StronglySorted Z.le (keys pc)).
  { unfold keys. rewrite (filter_none (fun k => negb (isArrayIndex k))).
    - rewrite app_nil_r. apply sortAsc_sorted.
    - intros k Hk. now rewrite (Names k Hk). }
  assert (K : keys pc = rev l2 ++ r :: rev l1).
  { rewrite <- (rev_involutive (keys pc)), R, rev_app_distr. simpl.
    now rewrite <- app_assoc. }
  rewrite K in Sorted.
  assert (Kq : In q (keys pc)).
  { apply playersCount_key. split; [assumption|]. now rewrite Tie. }
  rewrite K in Kq. apply in_app_iff in Kq.
  destruct Kq as [Kq|[<-|Kq]].
  - apply in_rev in Kq. specialize (After q Kq). lia.
  - lia.
  - now apply (sorted_after _ _ _ Sorted).
Qed.

Lemma most_tie_break_witness :
  most [mkCell 3 NaN NaN; mkCell 1 NaN NaN; mkCell 2 NaN NaN] = Ok 1
  /\ 1 <= 3.
Proof.
  split; [reflexivity|].
  apply (most_tie_break [mkCell 3 NaN NaN; mkCell 1 NaN NaN; mkCell 2 NaN NaN] 1).
  - reflexivity.
  - intros c [<-|[<-|[<-|[]]]] _; reflexivity.
  - discriminate.
  - reflexivity.
Defined.

(** ** More on the transition *)

(** X13. Owners are conserved: when the owners of the cells live after
    the moves are below 10^21 in absolute value, every cell of the next
    generation has the owner of a cell that was live after the moves; a
    newborn is never unowned and takes the owner of a live cell on one of
    its own neighbour coordinates. *)
Theorem owners_conserved (g g' : Grid) (turnMoves : list Move) (c : Cell) :
  (forall d, In d (postMoves g turnMoves) -> Z.abs (owner d) < 10 ^ 21) ->
  next g turnMoves = Ok g' ->
  In c (cells g') ->
  (exists d, In d (postMoves g turnMoves) /\ owner d = owner c)
  /\ (liveAt (postMoves g turnMoves) (key c) = false ->
      owner c <> unowned
      /\ exists d, In d (postMoves g turnMoves)
                   /\ In (key d) (neighbourCoords (size g) (key c))
                   /\ owner d = owner c).
Proof.
  intros Small E Hc.
  destruct (next_Ok _ _ _ E) as (st & S1 & _ & Cells).
  destruct (scan_spec _ _ _ S1) as (Born & _ & _ & _).
  rewrite Cells in Hc. apply in_app_iff in Hc. destruct Hc as [Hc|Hc].
  - destruct (Born c Hc) as (_ & _ & Vote & _).
    destruct (most_Ok_key _ _ Vote) as (r & P & Nr & (d & Hd & Od)).
    apply liveNeighbours_In in Hd. destruct Hd as [Hd Kd].
    assert (Oc : owner c = r).
    { rewrite P. apply parseInt_small. rewrite <- Od. now apply Small. }
    rewrite Oc.
    split; [eauto|]. intros _. split; [assumption|]. eauto.
  - apply filter_In in Hc. destruct Hc as [Hc Healthy].
    split; [eauto|]. intro Dead. apply isHealthy_Int in Healthy.
    rewrite (liveAt_In _ _ Hc Healthy) in Dead. discriminate.
Qed.

Lemma owners_conserved_witness :
  exists d, In d (postMoves contested []) /\ owner d = 1.
Proof.
  refine (proj1 (owners_conserved contested contestedNext []
                   (mkCell 1 (Int 2) (Int 1)) _ _ _)).
  - intros d [<-|[<-|[<-|[]]]]; reflexivity.
  - reflexivity.
  - now left.
Defined.

Lemma foldM_Throw {A S : Type} (body : S -> A -> result S) (l : list A)
  (s : S) (e : error) :
  foldM body l s = Throw e -> exists a s', In a l /\ body s' a = Throw e.
Proof.
  revert s. induction l as [|a l IH]; intro s; simpl; [discriminate|].
  destruct (body s a) as [s1|e1] eqn:B; simpl.
  - intro H. destruct (IH s1 H) as (b & s' & Hb & Hs). eauto.
  - intro H. injection H as ->. eauto.
Qed.

Lemma scan_Throw (n : Z) (cs : list Cell) (e : error) :
  scan n cs = Throw e -> exists C, unownedBirth n cs C.
Proof.
  unfold scan. intro H.
  destruct (foldM_Throw _ _ _ _ H) as (c & st & Hc & Hs).
  unfold scanCell in Hs. rewrite forShiftsM_shifts in Hs.
  destruct (foldM_Throw _ _ _ _ Hs) as (ij & [checked newBorns] & Hij & T).
  unfold scanShift in T.
  destruct (isAlive cs _) eqn:A; [discriminate|].
  destruct (existsb _ checked); [discriminate|].
  rewrite shouldBeBorn_spec in T.
  set (q := key (shifted n c (fst ij) (snd ij))) in *.
  destruct (Nat.eqb_spec (liveNeighbourCount n cs q) 3) as [B|B];
    [|discriminate].
  unfold setOwner in T.
  destruct (most (liveNeighbours n cs q)) as [o|[]] eqn:M; [discriminate|].
  exists q. split; [|split; [|split]].
  - exists c. split; [assumption|]. now apply neighbourCoords_shifted.
  - unfold q. now rewrite liveAt_key.
  - assumption.
  - now apply most_throws_iff.
Qed.

(** X14. The one way [next] fails: it throws, and then a [TypeError],
    exactly when the grid after the moves has a dead coordinate pair next
    to a live cell with three live neighbour coordinates occupied by
    unowned cells only. *)
Theorem next_throws_iff (g : Grid) (turnMoves : list Move) :
  (next g turnMoves = Throw TypeError
   <-> exists C, unownedBirth (size g) (postMoves g turnMoves) C)
  /\ forall e, next g turnMoves = Throw e -> e = TypeError.
Proof.
  split; [|intros []; reflexivity]. split.
  - unfold next. fold (postMoves g turnMoves).
    destruct (scan _ _) as [st|e] eqn:S1; simpl; [discriminate|].
    intros _. now apply scan_Throw in S1.
  - intros (C & (live & Hl & HC) & Dead & Three & Unowned).
    destruct (next g turnMoves) as [g'|[]] eqn:E; [|reflexivity].
    exfalso.
    assert (V : votable (size g) (postMoves g turnMoves))
      by (apply next_completes_iff; eauto).
    destruct (V live C Hl HC Dead Three) as (d & Hd & Od).
    apply Od. now apply Unowned.
Qed.

Lemma conwayRule_healthy (n : Z) (cs : list Cell) (c : Cell) :
  uniqueCoords cs -> liveAt cs (key c) = true ->
  conwayRule n cs (key c) = isHealthy n cs c.
Proof.
  intros U L. unfold conwayRule, isHealthy. rewrite L.
  rewrite (getAliveNeighboursOf_count n cs c U). simpl.
  rewrite orb_false_r. f_equal; apply Nat.eqb_sym.
Qed.

(** The rule on the outcome of a completed scan. *)
Lemma generation_rule (n : Z) (cs : list Cell) (st : scanState) (a b : Z) :
  0 < n ->
  (forall d, In d cs -> inBounds n d) ->
  uniqueCoords cs ->
  scan n cs = Ok st ->
  0 <= a < n -> 0 <= b < n ->
  liveAt (snd st ++ filter (isHealthy n cs) cs) (Int a, Int b)
  = conwayRule n cs (Int a, Int b).
Proof.
  intros N B' U' S1 A B.
  destruct (scan_spec _ _ _ S1) as (Born & Complete & _ & _).
  set (next' := snd st ++ filter (isHealthy n cs) cs).
  set (p := (Int a, Int b)).
  destruct (liveAt cs p) eqn:L.
  - pose proof L as L'. apply liveAt_true_iff in L'.
    destruct L' as (c & _ & _ & Hc & Kc & _).
    rewrite <- Kc in L |- *. rewrite conwayRule_healthy by assumption.
    destruct (isHealthy n cs c) eqn:H.
    + apply liveAt_In; [|exists a, b; now rewrite Kc].
      apply in_app_iff. right. apply filter_In. auto.
    + destruct (liveAt next' (key c)) eqn:L2; [|reflexivity].
      apply liveAt_true_iff in L2. destruct L2 as (d & _ & _ & Hd & Kd & _).
      apply in_app_iff in Hd. destruct Hd as [Hd|Hd].
      * exfalso. now apply (born_survivor_apart _ _ d c (Born d Hd) Hc).
      * apply filter_In in Hd. destruct Hd as [Hd Hh].
        assert (d = c) by now apply (uniqueCoords_inj _ _ _ U').
        subst d. congruence.
  - unfold conwayRule. rewrite L.
    destruct (Nat.eqb_spec (liveNeighbourCount n cs p) 3) as [Three|NotThree].
    + assert (Near : exists live,
                In live cs /\ In p (neighbourCoords n (key live))).
      { unfold liveNeighbourCount in Three.
        destruct (filter (liveAt cs) (neighbourCoords n p)) as [|q l] eqn:F;
          [discriminate Three|].
        assert (I : In q (filter (liveAt cs) (neighbourCoords n p)))
          by (rewrite F; now left).
        apply filter_In in I. destruct I as [I Lq].
        apply liveAt_true_iff in Lq. destruct Lq as (d & _ & _ & Hd & Kd & _).
        exists d. split; [assumption|].
        destruct (B' d Hd) as (a' & b' & Kd' & A' & B'').
        rewrite Kd'. apply neighbour_back; try assumption.
        now rewrite <- Kd', Kd. }
      destruct Near as (live & Hl & Hp).
      destruct (Complete live p Hl Hp L Three) as (c & Hc & Kc).
      rewrite <- Kc. apply liveAt_In; [|exists a, b; exact Kc].
      apply in_app_iff. now left.
    + destruct (liveAt next' p) eqn:L2; [|reflexivity].
      apply liveAt_true_iff in L2. destruct L2 as (d & _ & _ & Hd & Kd & _).
      apply in_app_iff in Hd. destruct Hd as [Hd|Hd].
      * destruct (Born d Hd) as (_ & Three & _). rewrite Kd in Three.
        contradiction.
      * apply filter_In in Hd. destruct Hd as [Hd _].
        rewrite <- Kd, (liveAt_In _ d Hd) in L; [discriminate|].
        exists a, b. exact Kd.
Qed.

(** X15. The rule of the game: on a board of size [n > 0] with in-bounds
    cells and moves and one cell per coordinate pair, a completed [next]
    makes an in-bounds coordinate pair live exactly as the rule says: a
    live pair stays with two or three live neighbour coordinates, a dead
    one is born with exactly three. *)
Theorem conway_step (g g' : Grid) (turnMoves : list Move) (a b : Z) :
  0 < size g ->
  (forall c, In c (cells g) -> inBounds (size g) c) ->
  (forall m, In m turnMoves -> 0 <= mx m < size g /\ 0 <= my m < size g) ->
  uniqueCoords (cells g) ->
  next g turnMoves = Ok g' ->
  0 <= a < size g -> 0 <= b < size g ->
  liveAt (cells g') (Int a, Int b)
  = conwayRule (size g) (postMoves g turnMoves) (Int a, Int b).
Proof.
  intros N Hcs Hms U E A B.
  destruct (next_Ok _ _ _ E) as (st & S1 & _ & ->).
  apply generation_rule; try assumption.
  - now apply applyMoves_inBounds.
  - now apply applyMoves_unique.
Qed.

Lemma conway_step_witness :
  liveAt (cells blinkerUpright) (Int 3, Int 2)
  = conwayRule 50 (postMoves blinker []) (Int 3, Int 2).
Proof.
  apply (conway_step blinker blinkerUpright [] 3 2).
  - reflexivity.
  - intros c [<-|[<-|[<-|[]]]];
      [exists 2, 3 | exists 3, 3 | exists 4, 3]; simpl; repeat split; lia.
  - intros m [].
  - unfold uniqueCoords. simpl.
    repeat constructor; simpl; intuition discriminate.
  - reflexivity.
  - simpl. lia.
  - simpl. lia.
Defined.

Lemma flat_map_length_const {A B : Type} (f : A -> list B) (k : nat)
  (l : list A) :
  (forall a, length (f a) = k) -> length (flat_map f l) = (k * length l)%nat.
Proof.
  intro H. induction l as [|a l IH]; simpl; [lia|].
  rewrite length_app, H, IH. lia.
Qed.

Lemma neighbourCoords_length (n : Z) (p : coord) :
  length (neighbourCoords n p) = 8%nat.
Proof. unfold neighbourCoords. now rewrite length_map, shifts_eq. Qed.

(** X16. Growth is bounded: a completed [next] keeps the size of the
    board and leaves at most nine times as many cells as were live after
    the moves, since every newborn sits on one of the eight neighbour
    coordinates of a live cell and no coordinate is born twice. *)
Theorem population_bound (g g' : Grid) (turnMoves : list Move) :
  next g turnMoves = Ok g' ->
  size g' = size g
  /\ (length (cells g') <= 9 * length (postMoves g turnMoves))%nat.
Proof.
  intro E.
  destruct (next_Ok _ _ _ E) as (st & S1 & Sz & Cells).
  destruct (scan_spec _ _ _ S1) as (Born & _ & Distinct & _).
  split; [assumption|]. rewrite Cells, length_app.
  assert (Nb : (length (snd st) <= 8 * length (postMoves g turnMoves))%nat).
  { rewrite <- (length_map key).
    rewrite <- (flat_map_length_const
                  (fun c => neighbourCoords (size g) (key c)) 8
                  (postMoves g turnMoves))
      by (intro; apply neighbourCoords_length).
    apply NoDup_incl_length; [assumption|].
    intros k Hk. apply in_map_iff in Hk. destruct Hk as (c & <- & Hc).
    destruct (Born c Hc) as (_ & _ & _ & live & Hl & Hq).
    apply in_flat_map. eauto. }
  pose proof (filter_length_le (isHealthy (size g) (postMoves g turnMoves))
                (postMoves g turnMoves)).
  lia.
Qed.

Lemma population_bound_witness :
  size blinkerUpright = size blinker
  /\ (length (cells blinkerUpright) <= 9 * length (postMoves blinker []))%nat.
Proof.
  apply (population_bound blinker blinkerUpright []). reflexivity.
Defined.

Lemma liveNeighbourCount_ext (n : Z) (cs1 cs2 : list Cell) (p : coord) :
  (forall q, In q (neighbourCoords n p) -> liveAt cs1 q = liveAt cs2 q) ->
  liveNeighbourCount n cs1 p = liveNeighbourCount n cs2 p.
Proof.
  unfold liveNeighbourCount. intro H. f_equal.
  induction (neighbourCoords n p) as [|q l IH]; simpl; [reflexivity|].
  rewrite (H q) by now left. rewrite IH by (intros; apply H; now right).
  reflexivity.
Qed.

Lemma liveAt_keys (cs1 cs2 : list Cell) (p : coord) :
  map key cs1 = map key cs2 -> liveAt cs1 p = liveAt cs2 p.
Proof.
  assert (H : forall l1 l2, map key l1 = map key l2 ->
                liveAt l1 p = true -> liveAt l2 p = true).
  { intros l1 l2 K L. apply liveAt_true_iff in L.
    destruct L as (c & a & b & Hc & Kc & P).
    assert (I : In p (map key l2)).
    { rewrite <- K, <- Kc. now apply in_map. }
    apply in_map_iff in I. destruct I as (d & Kd & Hd).
    apply liveAt_true_iff. exists d, a, b. auto. }
  intro K. destruct (liveAt cs1 p) eqn:L1.
  - symmetry. now apply (H cs1 cs2).
  - destruct (liveAt cs2 p) eqn:L2; [|reflexivity].
    rewrite (H cs2 cs1) in L1; auto.
Qed.

(** X17. Liveness does not depend on ownership: two grids of the same
    positive size, in bounds and with one cell per coordinate pair, whose
    cells sit on the same coordinate pairs have the same live coordinate
    pairs after a completed [next] with the same in-bounds moves, whoever
    owns the cells. *)
Theorem liveness_ignores_owners (g1 g2 g1' g2' : Grid)
  (turnMoves : list Move) (a b : Z) :
  0 < size g1 -> size g2 = size g1 ->
  (forall c, In c (cells g1) -> inBounds (size g1) c) ->
  (forall m, In m turnMoves -> 0 <= mx m < size g1 /\ 0 <= my m < size g1) ->
  uniqueCoords (cells g1) ->
  map key (cells g1) = map key (cells g2) ->
  next g1 turnMoves = Ok g1' -> next g2 turnMoves = Ok g2' ->
  0 <= a < size g1 -> 0 <= b < size g1 ->
  liveAt (cells g1') (Int a, Int b) = liveAt (cells g2') (Int a, Int b).
Proof.
  intros N Sz B1 Hms U1 Same E1 E2 A B.
  assert (U2 : uniqueCoords (cells g2)).
  { unfold uniqueCoords in *. now rewrite <- Same. }
  assert (B2 : forall c, In c (cells g2) -> inBounds (size g2) c).
  { intros c Hc. rewrite Sz.
    assert (I : In (key c) (map key (cells g1))).
    { rewrite Same. now apply in_map. }
    apply in_map_iff in I. destruct I as (d & Kd & Hd).
    apply (inBounds_key _ d); [assumption | now apply B1]. }
  destruct (next_Ok _ _ _ E1) as (st1 & S1 & _ & ->).
  destruct (next_Ok _ _ _ E2) as (st2 & S2 & _ & ->).
  rewrite Sz in S2 |- *.
  rewrite !generation_rule; try assumption;
    try (now apply applyMoves_unique);
    try (apply applyMoves_inBounds; try assumption; now rewrite <- Sz).
  assert (Post : forall p, liveAt (postMoves g1 turnMoves) p
                           = liveAt (postMoves g2 turnMoves) p).
  { intro p. unfold postMoves. rewrite !applyMoves_liveAt by assumption.
    now rewrite (liveAt_keys _ _ p Same). }
  unfold conwayRule. rewrite Post.
  rewrite (liveNeighbourCount_ext (size g1) (postMoves g1 turnMoves)
             (postMoves g2 turnMoves)) by (intros; apply Post).
  reflexivity.
Qed.

Lemma liveness_ignores_owners_witness :
  liveAt (cells blinkerUpright) (Int 3, Int 2)
  = liveAt [mkCell 2 (Int 3) (Int 2); mkCell 2 (Int 3) (Int 4);
            mkCell 2 (Int 3) (Int 3)] (Int 3, Int 2).
Proof.
  apply (liveness_ignores_owners
           blinker
           (mountSnapshot (newGrid 50)
              [mkMove 2 3 2; mkMove 3 3 2; mkMove 4 3 1])
           blinkerUpright
           {| size := 50;
              cells := [mkCell 2 (Int 3) (Int 2); mkCell 2 (Int 3) (Int 4);
                        mkCell 2 (Int 3) (Int 3)] |}
           [] 3 2).
  - reflexivity.
  - reflexivity.
  - intros c [<-|[<-|[<-|[]]]];
      [exists 2, 3 | exists 3, 3 | exists 4, 3]; simpl; repeat split; lia.
  - intros m [].
  - unfold uniqueCoords. simpl.
    repeat constructor; simpl; intuition discriminate.
  - reflexivity.
  - reflexivity.
  - reflexivity.
  - simpl. lia.
  - simpl. lia.
Defined.

Lemma cellsAt_live (cs : list Cell) (q : coord) :
  liveAt cs q = true -> (1 <= length (cellsAt cs q))%nat.
Proof.
  intro L. apply liveAt_true_iff in L. destruct L as (c & a & b & Hc & K & P).
  assert (I : In c (cellsAt cs q)).
  { unfold cellsAt. apply filter_In. split; [assumption|].
    apply equals_true_iff. exists a, b. rewrite key_at_coord. split; congruence. }
  destruct (cellsAt cs q); [destruct I | simpl; lia].
Qed.

Lemma slot_counts (cs : list Cell) (qs : list coord) :
  (length qs <= length (flat_map (neighbourSlot cs) qs))%nat
  /\ (length (filter (liveAt cs) qs)
      <= list_sum (map (fun q => length (cellsAt cs q)) qs))%nat
  /\ (uniqueCoords cs ->
      length (flat_map (neighbourSlot cs) qs) = length qs
      /\ list_sum (map (fun q => length (cellsAt cs q)) qs)
         = length (filter (liveAt cs) qs)).
Proof.
  induction qs as [|q l IH]; cbn [flat_map map filter list_sum fold_right length].
  - repeat split; lia.
  - destruct IH as (I1 & I2 & I3). rewrite length_app.
    fold (list_sum (map (fun q => length (cellsAt cs q)) l)).
    assert (S1 : (1 <= length (neighbourSlot cs q))%nat).
    { unfold neighbourSlot. destruct (cellsAt cs q); simpl; lia. }
    assert (S2 : (length (filter (liveAt cs) (q :: l))
                  = (if liveAt cs q then 1 else 0)
                    + length (filter (liveAt cs) l))%nat).
    { simpl. now destruct (liveAt cs q). }
    change (if liveAt cs q then q :: filter (liveAt cs) l
            else filter (liveAt cs) l) with (filter (liveAt cs) (q :: l)).
    rewrite S2.
    assert (S3 : ((if liveAt cs q then 1 else 0) <= length (cellsAt cs q))%nat).
    { destruct (liveAt cs q) eqn:L; [now apply cellsAt_live | lia]. }
    split; [lia|]. split; [lia|]. intro U. destruct (I3 U) as [J1 J2].
    pose proof (cellsAt_unique cs q U) as C1.
    assert (S4 : length (neighbourSlot cs q) = 1%nat).
    { unfold neighbourSlot. rewrite C1. destruct (liveAt cs q) eqn:L; simpl.
      - exact C1.
      - reflexivity. }
    split; lia.
Qed.

(** X18. The two counts differ on duplicates: [getNeighboursOf] lists at
    least eight cells and [getAliveNeighboursOf] counts every live cell on
    a neighbour coordinate, so the survival count is at least the number
    of live neighbour coordinates that the birth test counts; on a grid
    with one cell per coordinate pair the list has exactly eight cells and
    the two counts agree. *)
Theorem survival_counts_cells (n : Z) (cs : list Cell) (c : Cell) :
  (8 <= length (getNeighboursOf n cs c))%nat
  /\ (liveNeighbourCount n cs (key c) <= length (getAliveNeighboursOf n cs c))%nat
  /\ (uniqueCoords cs ->
      length (getNeighboursOf n cs c) = 8%nat
      /\ length (getAliveNeighboursOf n cs c) = liveNeighbourCount n cs (key c)).
Proof.
  rewrite getNeighboursOf_spec, getAliveNeighboursOf_length.
  unfold liveNeighbourCount.
  destruct (slot_counts cs (neighbourCoords n (key c))) as (I1 & I2 & I3).
  rewrite neighbourCoords_length in I1.
  split; [assumption|]. split; [assumption|].
  intro U. destruct (I3 U) as [J1 J2].
  rewrite neighbourCoords_length in J1. auto.
Qed.
